(** * Synchronisation primitives of the ISC headers: reference counter and
      two-lock queue

    A shallow embedding of [isc/refcount.h] and [isc/queue.h].  The macros of
    the two headers are transcribed statement by statement; integers are [Z]
    with the 32-bit wrap-around written out, pointers are a three-way
    inductive ([NULL], the [(void * )(-1)] marker, the address of an element),
    and the memory that holds the queue elements is a finite map from
    addresses to link records. *)

From Stdlib Require Import ZArith Lia.
From stdpp Require Import gmap list.

Local Open Scope Z_scope.

(** ** Outcomes of a macro body *)

(** How a run can stop short of its end: a failed [ISC_REQUIRE] / [ISC_INSIST]
    (the program aborts), a failed [ISC_ERROR_RUNTIMECHECK] / [RUNTIME_CHECK]
    (fatal error), a dereference of something that is not the address of an
    element, or a thread that locks a mutex it already holds. *)
Inductive failure : Type :=
  | AssertionFailed
  | RuntimeCheckFailed
  | InvalidAccess
  | SelfDeadlock.

Inductive outcome (A : Type) : Type :=
  | Done (a : A)
  | Halt (f : failure).
Arguments Done {A} a.
Arguments Halt {A} f.

Definition is_done {A} (o : outcome A) : bool :=
  match o with Done _ => true | Halt _ => false end.

Definition faults {A} (o : outcome A) : Prop := o = Halt AssertionFailed.

(** ** The mutex the two headers rely on *)

Inductive isc_result_t : Type := ISC_R_SUCCESS | ISC_R_UNEXPECTED.

Definition result_eqb (a b : isc_result_t) : bool :=
  match a, b with
  | ISC_R_SUCCESS, ISC_R_SUCCESS | ISC_R_UNEXPECTED, ISC_R_UNEXPECTED => true
  | _, _ => false
  end.

(** Modelled from the spec: the lower-level mutex primitive of [isc/mutex.h],
    which is not among the sources.  A mutex is free, held or destroyed. *)
Inductive isc_mutex_t : Type := MutexFree | MutexHeld | MutexDestroyed.

(** Modelled from the spec: [isc_mutex_init] of [isc/mutex.h]. *)
Definition isc_mutex_init (m : isc_mutex_t) : isc_mutex_t * isc_result_t :=
  (MutexFree, ISC_R_SUCCESS).

(** Modelled from the spec: [isc_mutex_lock] of [isc/mutex.h].  In a
    sequential run a second lock of a held mutex never returns. *)
Definition isc_mutex_lock (m : isc_mutex_t) : outcome (isc_mutex_t * isc_result_t) :=
  match m with
  | MutexFree => Done (MutexHeld, ISC_R_SUCCESS)
  | MutexHeld => Halt SelfDeadlock
  | MutexDestroyed => Done (MutexDestroyed, ISC_R_UNEXPECTED)
  end.

(** Modelled from the spec: [isc_mutex_unlock] of [isc/mutex.h]. *)
Definition isc_mutex_unlock (m : isc_mutex_t) : isc_mutex_t * isc_result_t :=
  match m with
  | MutexHeld => (MutexFree, ISC_R_SUCCESS)
  | _ => (m, ISC_R_UNEXPECTED)
  end.

(** Modelled from the spec: [isc_mutex_destroy] of [isc/mutex.h]. *)
Definition isc_mutex_destroy (m : isc_mutex_t) : isc_mutex_t * isc_result_t :=
  match m with
  | MutexFree => (MutexDestroyed, ISC_R_SUCCESS)
  | _ => (m, ISC_R_UNEXPECTED)
  end.

(** Modelled from the spec: [ISC_REQUIRE] and [ISC_INSIST] of
    [isc/assertions.h], "fault if violated". *)
Definition ISC_REQUIRE (c : bool) : outcome unit :=
  if c then Done tt else Halt AssertionFailed.

Definition ISC_INSIST (c : bool) : outcome unit := ISC_REQUIRE c.

(** Modelled from the spec: [ISC_ERROR_RUNTIMECHECK] of [isc/error.h]. *)
Definition ISC_ERROR_RUNTIMECHECK (c : bool) : outcome unit :=
  if c then Done tt else Halt RuntimeCheckFailed.

Definition obind {A B} (o : outcome A) (k : A -> outcome B) : outcome B :=
  match o with
  | Done a => k a
  | Halt f => Halt f
  end.

(** ** 32-bit integers *)

Definition INT32_MIN : Z := - 2 ^ 31.
Definition INT32_MAX : Z := 2 ^ 31 - 1.

Definition int32_range (z : Z) : Prop := INT32_MIN <= z <= INT32_MAX.

(** The value an [int32_t] object holds after a result [z] is stored in it. *)
Definition wrap32 (z : Z) : Z := (z + 2 ^ 31) mod 2 ^ 32 - 2 ^ 31.

(** Conversion to [unsigned int]. *)
Definition uint32 (z : Z) : Z := z mod 2 ^ 32.

(** ** [isc/refcount.h] *)

Module Refcount.

(** The four bodies the header selects between. *)
Inductive implementation : Type :=
  | StdAtomic   (* ISC_PLATFORM_USETHREADS, ISC_PLATFORM_HAVESTDATOMIC *)
  | Xadd        (* ISC_PLATFORM_USETHREADS, ISC_PLATFORM_HAVEXADD *)
  | Locked      (* ISC_PLATFORM_USETHREADS, no atomics: refs and a mutex *)
  | NoThreads.  (* no ISC_PLATFORM_USETHREADS *)

(** [struct isc_refcount]; [lock] is a member of the [Locked] layout only.
    The other three layouts have no mutex: they carry the field along
    untouched, and [isc_refcount_init] leaves it at [MutexDestroyed]. *)
Record isc_refcount_t : Type := Ref { refs : Z; lock : isc_mutex_t }.

Definition set_refs (rp : isc_refcount_t) (v : Z) : isc_refcount_t :=
  {| refs := v; lock := lock rp |}.

Definition set_lock (rp : isc_refcount_t) (m : isc_mutex_t) : isc_refcount_t :=
  {| refs := refs rp; lock := m |}.

(** [atomic_fetch_add_explicit] / [atomic_fetch_sub_explicit] on a signed
    atomic: the old value is returned, the sum is stored with silent
    wrap-around.  [isc_atomic_xadd] has the same contract. *)
Definition atomic_fetch_add_explicit (rp : isc_refcount_t) (v : Z) : Z * isc_refcount_t :=
  (refs rp, set_refs rp (wrap32 (refs rp + v))).

Definition atomic_fetch_sub_explicit (rp : isc_refcount_t) (v : Z) : Z * isc_refcount_t :=
  (refs rp, set_refs rp (wrap32 (refs rp - v))).

Definition isc_atomic_xadd (rp : isc_refcount_t) (v : Z) : Z * isc_refcount_t :=
  (refs rp, set_refs rp (wrap32 (refs rp + v))).

Definition atomic_load_explicit (rp : isc_refcount_t) : Z := refs rp.

(** [*_tmp = v] through [unsigned int *_tmp]: the value is converted to
    [unsigned int].  [tp = false] is [tp == NULL], and the result is what has
    been written, if anything. *)
Definition store_target (tp : bool) (v : Z) : option Z :=
  if tp then Some (uint32 v) else None.

(** Modelled from the spec: [isc_refcount_init] is declared in the header and
    defined in a C file that is not among the sources; "sets count to n", and
    the layout with a mutex initialises it. *)
Definition isc_refcount_init (impl : implementation) (n : Z) : isc_refcount_t * isc_result_t :=
  match impl with
  | Locked => let '(m, r) := isc_mutex_init MutexDestroyed in (Ref (wrap32 n) m, r)
  | _ => (Ref (wrap32 n) MutexDestroyed, ISC_R_SUCCESS)
  end.

(** The [Locked] bracket: [isc_mutex_lock] with its run-time check, the body,
    [isc_mutex_unlock] with its run-time check. *)
Definition locked_lock (rp : isc_refcount_t) : outcome isc_refcount_t :=
  obind (isc_mutex_lock (lock rp)) (fun '(m, _result) =>
  obind (ISC_ERROR_RUNTIMECHECK (result_eqb _result ISC_R_SUCCESS)) (fun _ =>
  Done (set_lock rp m))).

Definition locked_unlock {A} (rp : isc_refcount_t) (a : A) : outcome (isc_refcount_t * A) :=
  let '(m, _result) := isc_mutex_unlock (lock rp) in
  obind (ISC_ERROR_RUNTIMECHECK (result_eqb _result ISC_R_SUCCESS)) (fun _ =>
  Done (set_lock rp m, a)).

(** [isc_refcount_current]: a macro in three layouts; in the [Locked] one the
    header only declares it, and it is taken to read the member as the
    others do. *)
Definition isc_refcount_current (impl : implementation) (rp : isc_refcount_t) : Z :=
  match impl with
  | StdAtomic => uint32 (atomic_load_explicit rp)
  | Xadd => uint32 (fst (isc_atomic_xadd rp 0))
  | Locked => uint32 (refs rp)
  | NoThreads => uint32 (refs rp)
  end.

Definition isc_refcount_destroy (impl : implementation) (rp : isc_refcount_t)
  : outcome isc_refcount_t :=
  match impl with
  | StdAtomic | Xadd =>
      obind (ISC_REQUIRE (isc_refcount_current impl rp =? 0)) (fun _ => Done rp)
  | Locked =>
      obind (ISC_REQUIRE (refs rp =? 0)) (fun _ =>
      let '(m, _result) := isc_mutex_destroy (lock rp) in
      obind (ISC_ERROR_RUNTIMECHECK (result_eqb _result ISC_R_SUCCESS)) (fun _ =>
      Done (set_lock rp m)))
  | NoThreads =>
      obind (ISC_REQUIRE (refs rp =? 0)) (fun _ => Done rp)
  end.

(** The three updates.  [++refs] and [--refs] on the plain [int] member of
    the [Locked] and [NoThreads] layouts are given the same two's-complement
    wrap-around as the atomic additions. *)
Definition isc_refcount_increment0 (impl : implementation) (rp : isc_refcount_t) (tp : bool)
  : outcome (isc_refcount_t * option Z) :=
  match impl with
  | StdAtomic =>
      let '(prev, rp) := atomic_fetch_add_explicit rp 1 in
      Done (rp, store_target tp (prev + 1))
  | Xadd =>
      let '(prev, rp) := isc_atomic_xadd rp 1 in
      Done (rp, store_target tp (prev + 1))
  | Locked =>
      obind (locked_lock rp) (fun rp =>
      let rp := set_refs rp (wrap32 (refs rp + 1)) in
      locked_unlock rp (store_target tp (refs rp)))
  | NoThreads =>
      let rp := set_refs rp (wrap32 (refs rp + 1)) in
      let _n := refs rp in
      Done (rp, store_target tp _n)
  end.

Definition isc_refcount_increment (impl : implementation) (rp : isc_refcount_t) (tp : bool)
  : outcome (isc_refcount_t * option Z) :=
  match impl with
  | StdAtomic =>
      let '(prev, rp) := atomic_fetch_add_explicit rp 1 in
      obind (ISC_REQUIRE (0 <? prev)) (fun _ =>
      Done (rp, store_target tp (prev + 1)))
  | Xadd =>
      let '(prev, rp) := isc_atomic_xadd rp 1 in
      obind (ISC_REQUIRE (0 <? prev)) (fun _ =>
      Done (rp, store_target tp (prev + 1)))
  | Locked =>
      obind (locked_lock rp) (fun rp =>
      obind (ISC_REQUIRE (0 <? refs rp)) (fun _ =>
      let rp := set_refs rp (wrap32 (refs rp + 1)) in
      locked_unlock rp (store_target tp (refs rp))))
  | NoThreads =>
      obind (ISC_REQUIRE (0 <? refs rp)) (fun _ =>
      let rp := set_refs rp (wrap32 (refs rp + 1)) in
      let _n := refs rp in
      Done (rp, store_target tp _n))
  end.

Definition isc_refcount_decrement (impl : implementation) (rp : isc_refcount_t) (tp : bool)
  : outcome (isc_refcount_t * option Z) :=
  match impl with
  | StdAtomic =>
      let '(prev, rp) := atomic_fetch_sub_explicit rp 1 in
      obind (ISC_REQUIRE (0 <? prev)) (fun _ =>
      Done (rp, store_target tp (prev - 1)))
  | Xadd =>
      let '(prev, rp) := isc_atomic_xadd rp (-1) in
      obind (ISC_REQUIRE (0 <? prev)) (fun _ =>
      Done (rp, store_target tp (prev - 1)))
  | Locked =>
      obind (locked_lock rp) (fun rp =>
      obind (ISC_REQUIRE (0 <? refs rp)) (fun _ =>
      let rp := set_refs rp (wrap32 (refs rp - 1)) in
      locked_unlock rp (store_target tp (refs rp))))
  | NoThreads =>
      obind (ISC_REQUIRE (0 <? refs rp)) (fun _ =>
      let rp := set_refs rp (wrap32 (refs rp - 1)) in
      let _n := refs rp in
      Done (rp, store_target tp _n))
  end.

(** A counter an operation can be started on: its value fits the 32-bit
    member, and where the layout has a mutex nobody holds it. *)
Definition ready (impl : implementation) (rp : isc_refcount_t) : Prop :=
  int32_range (refs rp) /\ (impl = Locked -> lock rp = MutexFree).

(** "For every prior value, [increment0] succeeds and yields prior+1", read
    over the integers. *)
Definition increment0_adds_one_everywhere : Prop :=
  forall impl rp tp, ready impl rp ->
  exists rp' out, isc_refcount_increment0 impl rp tp = Done (rp', out) /\
                  refs rp' = refs rp + 1.

(** [k] calls of one update in a row, each on the counter the previous call
    left. *)
Fixpoint repeat_op (op : isc_refcount_t -> outcome (isc_refcount_t * option Z))
    (k : nat) (rp : isc_refcount_t) : outcome isc_refcount_t :=
  match k with
  | O => Done rp
  | S k' => obind (op rp) (fun '(rp', _) => repeat_op op k' rp')
  end.

End Refcount.

(** ** [isc/queue.h] *)

Module Queue.

Definition addr : Type := positive.

(** A pointer to an element: "NULL is end of list, -1 is not linked". *)
Inductive ptr : Type :=
  | NULL
  | NOT_LINKED          (* (void * )(-1) *)
  | Ptr (a : addr).

#[global] Instance ptr_eq_dec : EqDecision ptr.
Proof. solve_decision. Defined.

Definition is_NULL (p : ptr) : bool :=
  match p with NULL => true | _ => false end.

Definition is_NOT_LINKED (p : ptr) : bool :=
  match p with NOT_LINKED => true | _ => false end.

(** [ISC_QLINK(type)]: [struct { type *prev, *next; }]. *)
Record qlink : Type := QLink { prev : ptr; next : ptr }.

(** [ISC_QUEUE(type)]. *)
Record queue : Type := Queue_ {
  head : ptr;
  tail : ptr;
  headlock : isc_mutex_t;
  taillock : isc_mutex_t
}.

(** The queue object together with the memory its elements live in. *)
Record state : Type := State { q : queue; mem : gmap addr qlink }.

Definition M (A : Type) : Type := state -> outcome (A * state).

Definition ret {A} (a : A) : M A := fun s => Done (a, s).

Definition bind {A B} (c : M A) (k : A -> M B) : M B :=
  fun s => match c s with
           | Done (a, s') => k a s'
           | Halt f => Halt f
           end.

Definition lift {A} (o : outcome A) : M A :=
  fun s => match o with Done a => Done (a, s) | Halt f => Halt f end.

Declare Scope queue_scope.
Delimit Scope queue_scope with queue.
Notation "'do' x <- c ; k" := (bind c (fun x => k))
  (at level 10, x name, c at level 100, k at level 200,
   format "'[v' 'do'  x  <-  c ; '/' k ']'") : queue_scope.
Notation "'run' c ; k" := (bind c (fun _ => k))
  (at level 10, c at level 100, k at level 200,
   format "'[v' 'run'  c ; '/' k ']'") : queue_scope.
Local Open Scope queue_scope.

(** *** Reading and writing the queue object and the link of an element *)

Definition get_head : M ptr := fun s => Done (head (q s), s).
Definition get_tail : M ptr := fun s => Done (tail (q s), s).

Definition set_head (v : ptr) : M unit := fun s =>
  Done (tt, State (Queue_ v (tail (q s)) (headlock (q s)) (taillock (q s))) (mem s)).

Definition set_tail (v : ptr) : M unit := fun s =>
  Done (tt, State (Queue_ (head (q s)) v (headlock (q s)) (taillock (q s))) (mem s)).

(** [p->link]: [p] has to be the address of an element that exists. *)
Definition load_link (p : ptr) : M qlink := fun s =>
  match p with
  | Ptr a => match mem s !! a with
             | Some lk => Done (lk, s)
             | None => Halt InvalidAccess
             end
  | _ => Halt InvalidAccess
  end.

Definition store_link (p : ptr) (lk : qlink) : M unit := fun s =>
  match p with
  | Ptr a => match mem s !! a with
             | Some _ => Done (tt, State (q s) (<[a := lk]> (mem s)))
             | None => Halt InvalidAccess
             end
  | _ => Halt InvalidAccess
  end.

Definition load_next (p : ptr) : M ptr := do lk <- load_link p; ret (next lk).
Definition load_prev (p : ptr) : M ptr := do lk <- load_link p; ret (prev lk).

Definition store_next (p v : ptr) : M unit :=
  do lk <- load_link p; store_link p (QLink (prev lk) v).
Definition store_prev (p v : ptr) : M unit :=
  do lk <- load_link p; store_link p (QLink v (next lk)).

(** *** The two locks *)

Inductive lock_id : Type := Headlock | Taillock.

Definition get_lock (l : lock_id) (s : state) : isc_mutex_t :=
  match l with Headlock => headlock (q s) | Taillock => taillock (q s) end.

Definition put_lock (l : lock_id) (m : isc_mutex_t) (s : state) : state :=
  match l with
  | Headlock => State (Queue_ (head (q s)) (tail (q s)) m (taillock (q s))) (mem s)
  | Taillock => State (Queue_ (head (q s)) (tail (q s)) (headlock (q s)) m) (mem s)
  end.

(** Modelled from the spec: [RUNTIME_CHECK], [LOCK] and [UNLOCK] of
    [isc/util.h], which is not among the sources: the mutex call, checked
    for success. *)
Definition RUNTIME_CHECK (c : bool) : outcome unit :=
  if c then Done tt else Halt RuntimeCheckFailed.

Definition LOCK (l : lock_id) : M unit := fun s =>
  obind (isc_mutex_lock (get_lock l s)) (fun '(m, r) =>
  obind (RUNTIME_CHECK (result_eqb r ISC_R_SUCCESS)) (fun _ =>
  Done (tt, put_lock l m s))).

Definition UNLOCK (l : lock_id) : M unit := fun s =>
  let '(m, r) := isc_mutex_unlock (get_lock l s) in
  obind (RUNTIME_CHECK (result_eqb r ISC_R_SUCCESS)) (fun _ =>
  Done (tt, put_lock l m s)).

(** [(void) isc_mutex_init(&lock)]. *)
Definition mutex_init (l : lock_id) : M unit := fun s =>
  Done (tt, put_lock l (fst (isc_mutex_init (get_lock l s))) s).

Definition mutex_destroy (l : lock_id) : M unit := fun s =>
  Done (tt, put_lock l (fst (isc_mutex_destroy (get_lock l s))) s).

Section Macros.

(** Whether the header is compiled with [ISC_QUEUE_CHECKINIT] defined. *)
Variable ISC_QUEUE_CHECKINIT : bool.

(** [ISC_QLINK_INSIST(x)]: [ISC_INSIST(x)] under [ISC_QUEUE_CHECKINIT],
    [(void)0] otherwise, in which case [x] is not even evaluated. *)
Definition ISC_QLINK_INSIST (x : M bool) : M unit :=
  if ISC_QUEUE_CHECKINIT then do b <- x; lift (ISC_INSIST b) else ret tt.

Definition ISC_QLINK_INIT (elt : ptr) : M unit :=
  run store_prev elt NOT_LINKED;
  store_next elt NOT_LINKED.

Definition ISC_QLINK_LINKED (elt : ptr) : M bool :=
  do n <- load_next elt; ret (negb (is_NOT_LINKED n)).

Definition ISC_QUEUE_INIT : M unit :=
  run mutex_init Taillock;
  run mutex_init Headlock;
  run set_head NULL;
  set_tail NULL.

Definition ISC_QUEUE_EMPTY : M bool :=
  do h <- get_head; ret (is_NULL h).

Definition ISC_QUEUE_DESTROY : M unit :=
  run ISC_QLINK_INSIST ISC_QUEUE_EMPTY;
  run mutex_destroy Taillock;
  mutex_destroy Headlock.

Definition ISC_QUEUE_PUSH (elt : ptr) : M unit :=
  run ISC_QLINK_INSIST (do l <- ISC_QLINK_LINKED elt; ret (negb l));
  run LOCK Taillock;
  do t <- get_tail;
  do headlocked <-
    (if is_NULL t then
       run UNLOCK Taillock;
       run LOCK Headlock;
       run LOCK Taillock;
       ret true
     else ret false);
  do t <- get_tail;
  run store_prev elt t;
  run store_next elt NULL;
  do t <- get_tail;
  run (if negb (is_NULL t) then store_next t elt else ret tt);
  run set_tail elt;
  run UNLOCK Taillock;
  if headlocked : bool then
    do h <- get_head;
    run (if is_NULL h then set_head elt else ret tt);
    UNLOCK Headlock
  else ret tt.

(** The tail of the [while] body of [ISC_QUEUE_POP], reached when the head
    element has a successor. *)
Definition pop_advance (r : ptr) : M unit :=
  do n <- load_next r;
  run set_head n;
  do h <- get_head;
  store_prev h NULL.

(** The [while] of [ISC_QUEUE_POP] leaves through a [break] on every path, so
    its body runs at most once. *)
Definition ISC_QUEUE_POP : M ptr :=
  run LOCK Headlock;
  do r <- get_head;
  run (if negb (is_NULL r) then
         do n <- load_next r;
         if is_NULL n then
           run LOCK Taillock;
           do n' <- load_next r;
           if is_NULL n' then
             run set_tail NULL;
             run set_head NULL;
             UNLOCK Taillock
           else
             run UNLOCK Taillock;
             pop_advance r
         else pop_advance r
       else ret tt);
  run UNLOCK Headlock;
  run (if negb (is_NULL r) then
         run store_prev r NOT_LINKED;
         store_next r NOT_LINKED
       else ret tt);
  ret r.

(** The four assignments shared by [ISC_QUEUE_UNLINK] and
    [ISC_QUEUE_UNLINKIFLINKED]. *)
Definition unlink_body (elt : ptr) : M unit :=
  do p <- load_prev elt;
  run (if is_NULL p then
         do n <- load_next elt; set_head n
       else
         do n <- load_next elt;
         do p <- load_prev elt;
         store_next p n);
  do n <- load_next elt;
  if is_NULL n then
    do p <- load_prev elt; set_tail p
  else
    do p <- load_prev elt;
    do n <- load_next elt;
    store_prev n p.

Definition ISC_QUEUE_UNLINK (elt : ptr) : M unit :=
  run ISC_QLINK_INSIST (ISC_QLINK_LINKED elt);
  run LOCK Headlock;
  run LOCK Taillock;
  run unlink_body elt;
  run UNLOCK Taillock;
  run UNLOCK Headlock;
  run store_prev elt NOT_LINKED;
  store_next elt NOT_LINKED.

Definition ISC_QUEUE_UNLINKIFLINKED (elt : ptr) : M unit :=
  run LOCK Headlock;
  run LOCK Taillock;
  do l <- ISC_QLINK_LINKED elt;
  run (if l : bool then unlink_body elt else ret tt);
  run UNLOCK Taillock;
  run UNLOCK Headlock;
  run store_prev elt NOT_LINKED;
  store_next elt NOT_LINKED.

End Macros.

(** *** The list a queue stands for *)

Definition first_or (d : ptr) (l : list addr) : ptr :=
  match l with [] => d | a :: _ => Ptr a end.

Fixpoint last_or (d : ptr) (l : list addr) : ptr :=
  match l with [] => d | a :: l' => last_or (Ptr a) l' end.

(** [chain m p l n]: the elements of [l] are linked to one another in this
    order, the first one has [prev = p] and the last one has [next = n]. *)
Fixpoint chain (m : gmap addr qlink) (p : ptr) (l : list addr) (n : ptr) : Prop :=
  match l with
  | [] => True
  | a :: l' => m !! a = Some (QLink p (first_or n l')) /\ chain m (Ptr a) l' n
  end.

(** The state of a queue nobody is working on, holding the elements [l] from
    head to tail. *)
Definition queue_inv (s : state) (l : list addr) : Prop :=
  NoDup l /\
  head (q s) = first_or NULL l /\
  tail (q s) = last_or NULL l /\
  chain (mem s) NULL l NULL /\
  headlock (q s) = MutexFree /\
  taillock (q s) = MutexFree.

(** Every element of the memory that is outside the queue carries the
    not-linked marker, as [ISC_QLINK_INIT] and the removals leave it. *)
Definition idle_unlinked (s : state) (l : list addr) : Prop :=
  forall a lk, mem s !! a = Some lk -> a ∉ l -> next lk = NOT_LINKED.

(** What the data model says of the two ends: the queue is empty exactly when
    [head] and [tail] are both [NULL], and otherwise the head element has no
    predecessor and the tail element no successor. *)
Definition ends_ok (s : state) (l : list addr) : Prop :=
  (l = [] <-> head (q s) = NULL) /\
  (l = [] <-> tail (q s) = NULL) /\
  ISC_QUEUE_EMPTY s = Done (bool_decide (l = []), s) /\
  (l <> [] ->
   load_prev (head (q s)) s = Done (NULL, s) /\
   load_next (tail (q s)) s = Done (NULL, s)).

(** *** The operations as one type *)

Inductive queue_op : Type :=
  | OpInit
  | OpPush (e : addr)
  | OpPop
  | OpUnlink (e : addr)
  | OpUnlinkIfLinked (e : addr).

Definition run_op (chk : bool) (o : queue_op) : M ptr :=
  match o with
  | OpInit => run ISC_QUEUE_INIT; ret NULL
  | OpPush e => run ISC_QUEUE_PUSH chk (Ptr e); ret NULL
  | OpPop => ISC_QUEUE_POP
  | OpUnlink e => run ISC_QUEUE_UNLINK chk (Ptr e); ret NULL
  | OpUnlinkIfLinked e => run ISC_QUEUE_UNLINKIFLINKED (Ptr e); ret NULL
  end.

(** What each operation asks of its caller: [push] an element that exists and
    is not linked, [unlink] an element of this queue, [unlink_if_linked] an
    element that is either not linked or in this queue. *)
Definition op_requires (o : queue_op) (s : state) (l : list addr) : Prop :=
  match o with
  | OpInit => True
  | OpPush e => queue_inv s l /\ exists lk, mem s !! e = Some lk /\ next lk = NOT_LINKED
  | OpPop => queue_inv s l
  | OpUnlink e => queue_inv s l /\ e ∈ l
  | OpUnlinkIfLinked e =>
      queue_inv s l /\
      exists lk, mem s !! e = Some lk /\ (next lk <> NOT_LINKED -> e ∈ l)
  end.

Definition without (e : addr) (l : list addr) : list addr :=
  filter (fun a => a <> e) l.

Definition op_contents (o : queue_op) (l : list addr) : list addr :=
  match o with
  | OpInit => []
  | OpPush e => l ++ [e]
  | OpPop => drop 1 l
  | OpUnlink e | OpUnlinkIfLinked e => without e l
  end.

(** *** First in, first out *)

Inductive fifo_op : Type := Push (e : addr) | Pop.

(** A sequence of pushes and pops run on the queue, one after the other; the
    result lists what each pop returned. *)
Fixpoint run_ops (chk : bool) (ops : list fifo_op) : M (list ptr) :=
  match ops with
  | [] => ret []
  | Push e :: ops' => run ISC_QUEUE_PUSH chk (Ptr e); run_ops chk ops'
  | Pop :: ops' => do r <- ISC_QUEUE_POP; do rs <- run_ops chk ops'; ret (r :: rs)
  end.

(** The queue of the specification: a list, push appends at the tail, pop
    removes the head (the earliest-pushed element still in the queue) and
    answers [NULL] on the empty queue. *)
Fixpoint fifo_model (l : list addr) (ops : list fifo_op) : list ptr * list addr :=
  match ops with
  | [] => ([], l)
  | Push e :: ops' => fifo_model (l ++ [e]) ops'
  | Pop :: ops' =>
      let '(rs, l') := fifo_model (drop 1 l) ops' in
      (first_or NULL l :: rs, l')
  end.

(** The sequence respects the requirement of [push]: each element pushed
    exists in the memory [d] and is not in the queue at that moment. *)
Fixpoint pushes_allowed (d : gset addr) (l : list addr) (ops : list fifo_op) : Prop :=
  match ops with
  | [] => True
  | Push e :: ops' => e ∈ d /\ (e ∉ l) /\ pushes_allowed d (l ++ [e]) ops'
  | Pop :: ops' => pushes_allowed d (drop 1 l) ops'
  end.

Definition pushed (ops : list fifo_op) : list addr :=
  omap (fun o => match o with Push e => Some e | Pop => None end) ops.

Definition elements_of (rs : list ptr) : list addr :=
  omap (fun r => match r with Ptr a => Some a | _ => None end) rs.

(** *** Two small memories to run the macros on *)

Definition unlinked : qlink := QLink NOT_LINKED NOT_LINKED.

(** Elements 1, 2 and 3, none of them in a queue, and an empty queue. *)
Definition sample_empty : state :=
  State (Queue_ NULL NULL MutexFree MutexFree)
        (<[3%positive := unlinked]> (<[2%positive := unlinked]> {[1%positive := unlinked]})).

(** The same three elements with element 1 alone in the queue. *)
Definition sample_one : state :=
  State (Queue_ (Ptr 1%positive) (Ptr 1%positive) MutexFree MutexFree)
        (<[3%positive := unlinked]> (<[2%positive := unlinked]> {[1%positive := QLink NULL NULL]})).

(** A body that never stops on a failed assertion. *)
Definition no_assert {A} (c : M A) : Prop :=
  forall s, c s <> Halt AssertionFailed.


(** The element an operation is handed, if any. *)
Definition op_element (o : queue_op) : option addr :=
  match o with
  | OpInit | OpPop => None
  | OpPush e | OpUnlink e | OpUnlinkIfLinked e => Some e
  end.

End Queue.
(** ** [isc/net.h] *)

Module Net.

(** *** IPv4 addresses in network byte order *)

Inductive byte_order : Type := LittleEndian | BigEndian.

Definition byte_at (k : Z) (x : Z) : Z := (x / 2 ^ (8 * k)) mod 256.

Definition bswap32 (x : Z) : Z :=
  byte_at 3 x + 2 ^ 8 * byte_at 2 x + 2 ^ 16 * byte_at 1 x + 2 ^ 24 * byte_at 0 x.

(** Modelled from the spec: [htonl] of the C library, which the header uses
    and does not define: the identity on a big-endian host, the reversal of
    the four bytes on a little-endian one. *)
Definition htonl (bo : byte_order) (x : Z) : Z :=
  match bo with
  | BigEndian => x
  | LittleEndian => bswap32 x
  end.

Definition ISC__IPADDR (bo : byte_order) (x : Z) : Z :=
  uint32 (htonl bo (uint32 x)).

Definition ISC_IPADDR_ISMULTICAST (bo : byte_order) (i : Z) : bool :=
  Z.land (uint32 i) (ISC__IPADDR bo 0xf0000000) =? ISC__IPADDR bo 0xe0000000.

Definition ISC_IPADDR_ISEXPERIMENTAL (bo : byte_order) (i : Z) : bool :=
  Z.land (uint32 i) (ISC__IPADDR bo 0xf0000000) =? ISC__IPADDR bo 0xf0000000.

Definition is_byte (b : Z) : Prop := 0 <= b < 256.

(** The host integer that the four octets [a.b.c.d], laid out in memory in
    this order (network byte order), read as. *)
Definition s_addr (bo : byte_order) (a b c d : Z) : Z :=
  match bo with
  | LittleEndian => a + 2 ^ 8 * b + 2 ^ 16 * c + 2 ^ 24 * d
  | BigEndian => 2 ^ 24 * a + 2 ^ 16 * b + 2 ^ 8 * c + d
  end.

(** *** IPv6 addresses *)

(** [struct in6_addr]: the sixteen bytes of [s6_addr]. *)
Definition s6_addr (x : list Z) (k : nat) : Z := nth k x 0.

Definition in6_wf (x : list Z) : Prop := length x = 16%nat /\ Forall is_byte x.

(** [IN6ADDR_ANY_INIT], [IN6ADDR_LOOPBACK_INIT], [IN6ADDR_V4MAPPED_INIT]. *)
Definition IN6ADDR_ANY_INIT : list Z := [0;0;0;0;0;0;0;0;0;0;0;0;0;0;0;0].
Definition IN6ADDR_LOOPBACK_INIT : list Z := [0;0;0;0;0;0;0;0;0;0;0;0;0;0;0;1].
Definition IN6ADDR_V4MAPPED_INIT : list Z := [0;0;0;0;0;0;0;0;0;0;0xff;0xff;0;0;0;0].

Definition in6addr_any : list Z := IN6ADDR_ANY_INIT.
Definition in6addr_loopback : list Z := IN6ADDR_LOOPBACK_INIT.

(** [memcmp(a, b, n) == 0]. *)
Definition memcmp_eq (a b : list Z) (n : nat) : bool :=
  bool_decide (take n a = take n b).

Definition IN6_IS_ADDR_V4MAPPED (x : list Z) : bool :=
  memcmp_eq x in6addr_any 10 &&
  (s6_addr x 10 =? 0xff) && (s6_addr x 11 =? 0xff).

Definition IN6_IS_ADDR_V4COMPAT (x : list Z) : bool :=
  memcmp_eq x in6addr_any 12 &&
  (negb (s6_addr x 12 =? 0) || negb (s6_addr x 13 =? 0) ||
   negb (s6_addr x 14 =? 0) ||
   (negb (s6_addr x 15 =? 0) && negb (s6_addr x 15 =? 1))).

Definition IN6_IS_ADDR_MULTICAST (a : list Z) : bool := s6_addr a 0 =? 0xff.

Definition IN6_IS_ADDR_LINKLOCAL (a : list Z) : bool :=
  (s6_addr a 0 =? 0xfe) && (Z.land (s6_addr a 1) 0xc0 =? 0x80).

Definition IN6_IS_ADDR_SITELOCAL (a : list Z) : bool :=
  (s6_addr a 0 =? 0xfe) && (Z.land (s6_addr a 1) 0xc0 =? 0xc0).

Definition IN6_IS_ADDR_LOOPBACK (x : list Z) : bool :=
  memcmp_eq x in6addr_loopback 16.

(** The replacements under [ISC_PLATFORM_FIXIN6ISADDR], which test the first
    32-bit word [S6_un.S6_l[0]] of the address. *)
Module Fix.

Definition IN6_IS_ADDR_LINKLOCAL (w : Z) : bool := Z.land w 0xC0FF =? 0x80FE.
Definition IN6_IS_ADDR_MULTICAST (w : Z) : bool := Z.land w 0xFF =? 0xFF.
Definition IN6_IS_ADDR_SITELOCAL (w : Z) : bool := Z.land w 0xC0FF =? 0xC0FE.

End Fix.

(** The first word of an address as a little-endian host reads it. *)
Definition S6_l0 (x : list Z) : Z :=
  s6_addr x 0 + 2 ^ 8 * s6_addr x 1 + 2 ^ 16 * s6_addr x 2 + 2 ^ 24 * s6_addr x 3.

(** Every byte value passes the test [f]. *)
Definition all_bytes (f : Z -> bool) : bool :=
  forallb (fun k => f (Z.of_nat k)) (seq 0 256).

End Net.

(** * Properties *)

(** ** 32-bit arithmetic *)

Lemma wrap32_id z : int32_range z -> wrap32 z = z.
Proof.
  unfold int32_range, INT32_MIN, INT32_MAX, wrap32. intros H.
  rewrite Z.mod_small by lia. lia.
Qed.

Lemma wrap32_range z : int32_range (wrap32 z).
Proof.
  unfold int32_range, INT32_MIN, INT32_MAX, wrap32.
  pose proof (Z.mod_pos_bound (z + 2 ^ 31) (2 ^ 32) ltac:(lia)). lia.
Qed.

Lemma uint32_id z : 0 <= z <= INT32_MAX -> uint32 z = z.
Proof.
  unfold INT32_MAX, uint32. intros H. apply Z.mod_small. lia.
Qed.

Lemma uint32_wrap32 z : uint32 (wrap32 z) = uint32 z.
Proof.
  unfold uint32, wrap32. rewrite Zminus_mod_idemp_l. f_equal. lia.
Qed.

Lemma uint32_zero z : int32_range z -> (uint32 z =? 0) = (z =? 0).
Proof.
  unfold int32_range, INT32_MIN, INT32_MAX, uint32. intros H.
  destruct (Z.eqb_spec z 0) as [->|Hz]; [reflexivity|].
  apply Z.eqb_neq. intros Hm.
  destruct (Z.lt_ge_cases z 0).
  - assert (z = (z + 2 ^ 32) - 2 ^ 32) as E by lia.
    assert ((z + 2 ^ 32) mod 2 ^ 32 = z + 2 ^ 32) by (apply Z.mod_small; lia).
    assert ((z + 2 ^ 32) mod 2 ^ 32 = z mod 2 ^ 32).
    { replace (z + 2 ^ 32) with (z + 1 * 2 ^ 32) by lia. apply Z.mod_add. lia. }
    lia.
  - rewrite Z.mod_small in Hm by lia. lia.
Qed.

(** ** The reference counter *)

Module RefcountFacts.
Import Refcount.

Lemma init_zero impl :
  fst (isc_refcount_init impl 0) =
  Ref 0 (match impl with Locked => MutexFree | _ => MutexDestroyed end).
Proof. destruct impl; reflexivity. Qed.

Lemma init_ready impl n : ready impl (fst (isc_refcount_init impl n)).
Proof.
  split.
  - destruct impl; apply wrap32_range.
  - intros ->. reflexivity.
Qed.

(** The value the counter holds after any of the three updates. *)
Lemma increment0_done impl rp tp :
  (impl = Locked -> lock rp = MutexFree) ->
  isc_refcount_increment0 impl rp tp =
  Done (set_refs rp (wrap32 (refs rp + 1)), store_target tp (refs rp + 1)).
Proof.
  intros Hm. destruct rp as [r m].
  destruct impl; try reflexivity; cbn in *; rewrite ?(Hm eq_refl); cbn;
    unfold store_target; destruct tp; cbn; rewrite ?uint32_wrap32; reflexivity.
Qed.

Lemma target_wrap tp z : store_target tp (wrap32 z) = store_target tp z.
Proof. unfold store_target. destruct tp; [|reflexivity]. now rewrite uint32_wrap32. Qed.

Lemma increment_done impl rp tp :
  (impl = Locked -> lock rp = MutexFree) -> 0 < refs rp ->
  isc_refcount_increment impl rp tp =
  Done (set_refs rp (wrap32 (refs rp + 1)), store_target tp (refs rp + 1)).
Proof.
  intros Hm Hpos. destruct rp as [r m]. cbn in Hpos.
  apply Z.ltb_lt in Hpos.
  destruct impl; cbn in *; rewrite ?(Hm eq_refl); cbn; rewrite Hpos; cbn;
    rewrite ?target_wrap; reflexivity.
Qed.

Lemma increment_faults impl rp tp :
  (impl = Locked -> lock rp = MutexFree) -> refs rp <= 0 ->
  isc_refcount_increment impl rp tp = Halt AssertionFailed.
Proof.
  intros Hm Hneg. destruct rp as [r m]. cbn in Hneg.
  apply Z.ltb_ge in Hneg.
  destruct impl; cbn in *; rewrite ?(Hm eq_refl); cbn; rewrite Hneg; reflexivity.
Qed.

Lemma decrement_done impl rp tp :
  (impl = Locked -> lock rp = MutexFree) -> 0 < refs rp ->
  isc_refcount_decrement impl rp tp =
  Done (set_refs rp (wrap32 (refs rp - 1)), store_target tp (refs rp - 1)).
Proof.
  intros Hm Hpos. destruct rp as [r m]. cbn in Hpos.
  apply Z.ltb_lt in Hpos.
  destruct impl; cbn in *; rewrite ?(Hm eq_refl); cbn; rewrite Hpos; cbn;
    rewrite ?target_wrap; try reflexivity.
  all: replace (r + -1) with (r - 1) by lia; reflexivity.
Qed.

Lemma decrement_faults impl rp tp :
  (impl = Locked -> lock rp = MutexFree) -> refs rp <= 0 ->
  isc_refcount_decrement impl rp tp = Halt AssertionFailed.
Proof.
  intros Hm Hneg. destruct rp as [r m]. cbn in Hneg.
  apply Z.ltb_ge in Hneg.
  destruct impl; cbn in *; rewrite ?(Hm eq_refl); cbn; rewrite Hneg; reflexivity.
Qed.

Lemma destroy_zero impl rp :
  (impl = Locked -> lock rp = MutexFree) -> refs rp = 0 ->
  isc_refcount_destroy impl rp =
  Done (match impl with Locked => set_lock rp MutexDestroyed | _ => rp end).
Proof.
  intros Hm Hz. destruct rp as [r m]. cbn in Hz. subst r.
  destruct impl; cbn in *; rewrite ?(Hm eq_refl); reflexivity.
Qed.

Lemma destroy_faults impl rp :
  int32_range (refs rp) -> refs rp <> 0 ->
  isc_refcount_destroy impl rp = Halt AssertionFailed.
Proof.
  intros Hr Hz. destruct rp as [r m]. cbn in Hr, Hz.
  assert ((r =? 0) = false) as E by now apply Z.eqb_neq.
  destruct impl; cbn; unfold atomic_load_explicit; cbn;
    rewrite ?uint32_zero by assumption; rewrite E; reflexivity.
Qed.

(** C1.  On a counter freshly initialised with [init(ref, 0)], under each of
    the four bodies of the header, [increment0] succeeds, the count becomes 1
    and 1 is what is written through a non-NULL [targetp] (nothing is written
    through a NULL one); [increment] on that same fresh counter faults on its
    [ISC_REQUIRE]. *)
Theorem fresh_counter_increment0_and_increment (impl : implementation) (tp : bool) :
  let rp := fst (isc_refcount_init impl 0) in
  isc_refcount_increment0 impl rp tp =
    Done (set_refs rp 1, if tp then Some 1 else None) /\
  faults (isc_refcount_increment impl rp tp).
Proof.
  cbn zeta. split.
  - destruct impl, tp; reflexivity.
  - destruct impl; reflexivity.
Qed.

(** C2.  [decrement] requires a prior count above 0: at a prior count of 0 or
    less it faults; otherwise the count becomes prior-1, which is also what is
    written through a non-NULL [targetp].  A [decrement] that brings the count
    to 0 followed at once by [destroy] succeeds, and [destroy] on a count
    that is not 0 faults. *)
Theorem decrement_and_destroy (impl : implementation) (rp : isc_refcount_t) (tp : bool) :
  ready impl rp ->
  (refs rp <= 0 -> faults (isc_refcount_decrement impl rp tp)) /\
  (0 < refs rp ->
   isc_refcount_decrement impl rp tp =
     Done (set_refs rp (refs rp - 1), if tp then Some (refs rp - 1) else None)) /\
  (refs rp = 1 ->
   is_done (obind (isc_refcount_decrement impl rp tp)
                  (fun '(rp', _) => isc_refcount_destroy impl rp')) = true) /\
  (refs rp <> 0 -> faults (isc_refcount_destroy impl rp)).
Proof.
  intros [Hr Hm]. unfold int32_range, INT32_MIN, INT32_MAX in Hr.
  repeat split.
  - intros Hneg. now apply decrement_faults.
  - intros Hpos. rewrite decrement_done by assumption.
    rewrite wrap32_id by (unfold int32_range, INT32_MIN, INT32_MAX; lia).
    unfold store_target. destruct tp; [|reflexivity].
    rewrite uint32_id by (unfold INT32_MAX; lia). reflexivity.
  - intros H1. rewrite decrement_done by (assumption || lia).
    cbn. rewrite destroy_zero; [reflexivity|exact Hm|].
    cbn. rewrite H1. reflexivity.
  - intros Hnz. apply destroy_faults; [exact Hr | exact Hnz].
Qed.

Lemma decrement_and_destroy_witness :
  ready StdAtomic (Ref 1 MutexDestroyed) /\
  is_done (obind (isc_refcount_decrement StdAtomic (Ref 1 MutexDestroyed) true)
                 (fun '(rp', _) => isc_refcount_destroy StdAtomic rp')) = true.
Proof.
  assert (ready StdAtomic (Ref 1 MutexDestroyed)) as H.
  { split; [unfold int32_range, INT32_MIN, INT32_MAX; simpl; lia | discriminate]. }
  split; [exact H|].
  apply (decrement_and_destroy StdAtomic (Ref 1 MutexDestroyed) true H).
  reflexivity.
Defined.

(** C10, counterexample.  At the largest value of the 32-bit counter the
    atomic addition wraps: the count becomes INT32_MIN, not prior+1. *)
Lemma increment0_wraps_at_INT32_MAX :
  ready StdAtomic (Ref 2147483647 MutexDestroyed) /\
  isc_refcount_increment0 StdAtomic (Ref 2147483647 MutexDestroyed) false =
    Done (Ref (-2147483648) MutexDestroyed, None) /\
  ~ increment0_adds_one_everywhere.
Proof.
  assert (ready StdAtomic (Ref 2147483647 MutexDestroyed)) as H.
  { split; [unfold int32_range, INT32_MIN, INT32_MAX; simpl; lia | discriminate]. }
  split; [exact H|]. split; [reflexivity|].
  intros C. destruct (C StdAtomic _ false H) as (rp' & out & E & R).
  vm_compute in E. injection E as <- _. vm_compute in R. discriminate R.
Qed.

(** C10, amended.  [increment0] makes no check on the prior count: for every
    prior value of the 32-bit counter, negative ones included, it succeeds; the
    count becomes prior+1 reduced to 32 bits, which is prior+1 itself for
    every prior value below INT32_MAX, and that count converted to
    [unsigned int] is what a non-NULL [targetp] receives.  [increment] and
    [decrement] are the ones that fault when the prior count is not above 0. *)
Theorem increment0_is_unchecked (impl : implementation) (rp : isc_refcount_t) (tp : bool) :
  ready impl rp ->
  isc_refcount_increment0 impl rp tp =
    Done (set_refs rp (wrap32 (refs rp + 1)),
          if tp then Some (uint32 (refs rp + 1)) else None) /\
  (refs rp < INT32_MAX -> wrap32 (refs rp + 1) = refs rp + 1) /\
  (refs rp <= 0 ->
   faults (isc_refcount_increment impl rp tp) /\
   faults (isc_refcount_decrement impl rp tp)).
Proof.
  intros [Hr Hm]. repeat split.
  - now apply increment0_done.
  - intros Hlt. apply wrap32_id.
    unfold int32_range, INT32_MIN, INT32_MAX in *. lia.
  - now apply increment_faults.
  - now apply decrement_faults.
Qed.

Lemma increment0_is_unchecked_witness :
  ready Locked (Ref (-5) MutexFree) /\
  isc_refcount_increment0 Locked (Ref (-5) MutexFree) true =
    Done (Ref (-4) MutexFree, Some 4294967292).
Proof.
  assert (ready Locked (Ref (-5) MutexFree)) as H.
  { split; [unfold int32_range, INT32_MIN, INT32_MAX; simpl; lia | reflexivity]. }
  split; [exact H|].
  exact (proj1 (increment0_is_unchecked Locked (Ref (-5) MutexFree) true H)).
Defined.

End RefcountFacts.

(** ** The queue *)

Module QueueFacts.
Import Queue.
Local Open Scope queue_scope.

(** *** Running a macro body one statement at a time *)

Section Steps.
Context {A B : Type}.

Lemma bind_eq (c : M A) (k : A -> M B) s a s' :
  c s = Done (a, s') -> bind c k s = k a s'.
Proof. unfold bind. intros ->. reflexivity. Qed.

Lemma bind_halt (c : M A) (k : A -> M B) s f :
  c s = Halt f -> bind c k s = Halt f.
Proof. unfold bind. intros ->. reflexivity. Qed.

Lemma bind_assoc {C} (c : M A) (k1 : A -> M B) (k2 : B -> M C) s :
  bind (bind c k1) k2 s = bind c (fun a => bind (k1 a) k2) s.
Proof. unfold bind. destruct (c s) as [[a s']|f]; reflexivity. Qed.

End Steps.

Lemma load_next_eq a lk qq m :
  m !! a = Some lk -> load_next (Ptr a) (State qq m) = Done (next lk, State qq m).
Proof. unfold load_next, load_link, bind; simpl. intros ->. reflexivity. Qed.

Lemma load_prev_eq a lk qq m :
  m !! a = Some lk -> load_prev (Ptr a) (State qq m) = Done (prev lk, State qq m).
Proof. unfold load_prev, load_link, bind; simpl. intros ->. reflexivity. Qed.

Lemma store_next_eq a lk v qq m :
  m !! a = Some lk ->
  store_next (Ptr a) v (State qq m) = Done (tt, State qq (<[a := QLink (prev lk) v]> m)).
Proof.
  unfold store_next, store_link, load_link, bind; simpl.
  intros H. rewrite H. simpl. rewrite H. reflexivity.
Qed.

Lemma store_prev_eq a lk v qq m :
  m !! a = Some lk ->
  store_prev (Ptr a) v (State qq m) = Done (tt, State qq (<[a := QLink v (next lk)]> m)).
Proof.
  unfold store_prev, store_link, load_link, bind; simpl.
  intros H. rewrite H. simpl. rewrite H. reflexivity.
Qed.

Ltac lookup :=
  repeat first [ rewrite lookup_insert_eq | rewrite lookup_insert_ne by congruence ];
  first [ reflexivity | eassumption ].

Ltac prim :=
  first [ reflexivity
        | eapply load_next_eq; lookup
        | eapply load_prev_eq; lookup
        | eapply store_next_eq; lookup
        | eapply store_prev_eq; lookup ].

Ltac norm :=
  cbn [is_NULL is_NOT_LINKED negb prev next first_or put_lock get_lock
       q mem head tail headlock taillock].

Ltac step := norm; first [ rewrite bind_assoc | erewrite bind_eq by prim ].
Ltac steps := repeat step; norm.

(** *** Chains of links *)

Lemma last_or_app d l1 l2 : last_or d (l1 ++ l2) = last_or (last_or d l1) l2.
Proof. revert d. induction l1 as [|a l1 IH]; intros d; simpl; [reflexivity|apply IH]. Qed.

Lemma last_or_snoc d l x : last_or d (l ++ [x]) = Ptr x.
Proof. rewrite last_or_app. reflexivity. Qed.

Lemma first_or_app d l1 l2 : first_or d (l1 ++ l2) = first_or (first_or d l2) l1.
Proof. destruct l1; reflexivity. Qed.

Lemma chain_app m p l1 l2 n :
  chain m p (l1 ++ l2) n <->
  chain m p l1 (first_or n l2) /\ chain m (last_or p l1) l2 n.
Proof.
  revert p. induction l1 as [|a l1 IH]; intros p; simpl.
  - tauto.
  - rewrite IH, first_or_app. tauto.
Qed.

Lemma chain_frame m p l n a lk :
  a ∉ l -> chain m p l n -> chain (<[a := lk]> m) p l n.
Proof.
  revert p. induction l as [|b l IH]; intros p Hnot; simpl; [tauto|].
  intros [Hb Hl]. apply not_elem_of_cons in Hnot as [Hab Hal]. split.
  - rewrite lookup_insert_ne by congruence. exact Hb.
  - apply IH; assumption.
Qed.

Lemma chain_lookup m p l n a :
  chain m p l n -> a ∈ l ->
  exists lk, m !! a = Some lk /\ (next lk = n \/ exists b, next lk = Ptr b).
Proof.
  revert p. induction l as [|b l IH]; intros p Hc Hin; [inversion Hin|].
  destruct Hc as [Hb Hl]. apply elem_of_cons in Hin as [->|Hin].
  - eexists. split; [exact Hb|]. destruct l; simpl; eauto.
  - eapply IH; eassumption.
Qed.

Lemma chain_linked m p l a lk :
  chain m p l NULL -> m !! a = Some lk -> next lk = NOT_LINKED -> a ∉ l.
Proof.
  intros Hc Ha Hn Hin.
  destruct (chain_lookup _ _ _ _ _ Hc Hin) as (lk' & Ha' & [E|[b E]]);
    congruence.
Qed.

Lemma chain_dom m p l n a : chain m p l n -> a ∈ l -> a ∈ dom m.
Proof.
  intros Hc Hin. destruct (chain_lookup _ _ _ _ _ Hc Hin) as (lk & E & _).
  apply elem_of_dom. eauto.
Qed.

Lemma dom_insert_same (m : gmap addr qlink) a lk :
  is_Some (m !! a) -> dom (<[a := lk]> m) = dom m.
Proof.
  intros H. rewrite dom_insert_L. apply subseteq_union_1_L.
  apply singleton_subseteq_l, elem_of_dom, H.
Qed.

(** *** What each macro does to a well-formed queue *)

Ltac open_state s :=
  let h := fresh "h" in let t := fresh "t" in
  let hl := fresh "hl" in let tl := fresh "tl" in let m := fresh "m" in
  destruct s as [[h t hl tl] m];
  cbn [q mem head tail headlock taillock] in *.

Lemma push_spec chk s l e lk :
  queue_inv s l -> mem s !! e = Some lk -> next lk = NOT_LINKED ->
  exists s', ISC_QUEUE_PUSH chk (Ptr e) s = Done (tt, s') /\
    queue_inv s' (l ++ [e]) /\
    dom (mem s') = dom (mem s) /\
    (forall a, a ∉ l -> a <> e -> mem s' !! a = mem s !! a).
Proof.
  intros (Hnd & Hh & Ht & Hc & Hhl & Htl) He Hn.
  open_state s. subst.
  assert (e ∉ l) as Hel by (eapply chain_linked; eassumption).
  destruct lk as [ep en]; cbn in Hn; subst en.
  unfold ISC_QUEUE_PUSH, ISC_QLINK_INSIST, ISC_QLINK_LINKED.
  destruct l as [|x l _] using rev_ind.
  - eexists. split; [destruct chk; steps; prim|].
    cbn [mem q put_lock last_or app]. rewrite insert_insert_eq.
    split; [|split].
    + repeat split; try reflexivity; [apply NoDup_singleton|].
      cbn. apply lookup_insert_eq.
    + apply dom_insert_same. eauto.
    + intros a _ Ha. rewrite lookup_insert_ne by congruence. reflexivity.
  - rewrite last_or_snoc in *.
    apply chain_app in Hc as [Hc Hx]. destruct Hx as [Hx _]. cbn [first_or] in *.
    apply not_elem_of_app in Hel as [Hel Hex].
    apply not_elem_of_cons in Hex as [Hex _].
    apply NoDup_app in Hnd as (Hnd & Hdis & _).
    assert (x ∉ l) as Hxl by (intros Hin; apply (Hdis x Hin); left).
    eexists. split; [destruct chk; steps; prim|].
    cbn [mem q put_lock]. rewrite insert_insert_eq.
    split; [|split].
    + repeat split; try reflexivity.
      * apply NoDup_app. split; [|split].
        -- apply NoDup_app. split; [assumption|]. split; [|apply NoDup_singleton].
           intros y Hy Hy'. apply list_elem_of_singleton in Hy'. subst. contradiction.
        -- intros y Hy Hy'. apply list_elem_of_singleton in Hy'. subst.
           apply elem_of_app in Hy as [Hy|Hy]; [contradiction|].
           apply list_elem_of_singleton in Hy. congruence.
        -- apply NoDup_singleton.
      * cbn [head q]. rewrite !first_or_app. reflexivity.
      * cbn [tail q]. rewrite last_or_snoc. reflexivity.
      * cbn [mem]. rewrite <- app_assoc. apply chain_app. split.
        -- cbn [first_or app]. do 2 (apply chain_frame; [assumption|]). exact Hc.
        -- cbn. split; [apply lookup_insert_eq|]. split; [|exact I].
           rewrite lookup_insert_ne by congruence. apply lookup_insert_eq.
    + rewrite !dom_insert_same; [reflexivity|eauto|].
      rewrite lookup_insert_ne by congruence. eauto.
    + intros a Ha Hae. apply not_elem_of_app in Ha as [_ Ha].
      apply not_elem_of_cons in Ha as [Ha _].
      rewrite !lookup_insert_ne by congruence. reflexivity.
Qed.

Ltac some_lookup :=
  rewrite ?lookup_insert_eq, ?lookup_insert_ne by congruence; eauto.

Lemma pop_empty s :
  head (q s) = NULL -> headlock (q s) = MutexFree ->
  ISC_QUEUE_POP s = Done (NULL, s).
Proof.
  intros Hh Hl. open_state s. subst. unfold ISC_QUEUE_POP. steps. reflexivity.
Qed.

Lemma pop_spec s a l :
  queue_inv s (a :: l) ->
  exists s', ISC_QUEUE_POP s = Done (Ptr a, s') /\
    queue_inv s' l /\
    mem s' !! a = Some (QLink NOT_LINKED NOT_LINKED) /\
    dom (mem s') = dom (mem s) /\
    (forall b, b ∉ a :: l -> mem s' !! b = mem s !! b).
Proof.
  intros (Hnd & Hh & Ht & Hc & Hhl & Htl).
  open_state s. subst.
  apply NoDup_cons in Hnd as [Hal Hnd].
  destruct Hc as [Ha Hc].
  unfold ISC_QUEUE_POP, pop_advance.
  destruct l as [|b l].
  - cbn [first_or last_or] in *.
    eexists. split; [steps; prim|].
    cbn [mem q put_lock]. rewrite insert_insert_eq.
    split; [|split; [|split]].
    + repeat split; try reflexivity. apply NoDup_nil_2.
    + apply lookup_insert_eq.
    + apply dom_insert_same. eauto.
    + intros b Hb. apply not_elem_of_cons in Hb as [Hb _].
      rewrite lookup_insert_ne by congruence. reflexivity.
  - cbn [first_or last_or] in *. destruct Hc as [Hb Hc].
    apply not_elem_of_cons in Hal as [Hab Hal].
    apply NoDup_cons in Hnd as [Hbl Hnd].
    eexists. split; [steps; prim|].
    cbn [mem q put_lock]. rewrite insert_insert_eq.
    split; [|split; [|split]].
    + repeat split; try reflexivity.
      * apply NoDup_cons. split; assumption.
      * cbn [mem]. rewrite lookup_insert_ne by congruence. apply lookup_insert_eq.
      * do 2 (apply chain_frame; [assumption|]). exact Hc.
    + apply lookup_insert_eq.
    + rewrite !dom_insert_same; [reflexivity|..]; some_lookup.
    + intros c Hc'. apply not_elem_of_cons in Hc' as [Hca Hc'].
      apply not_elem_of_cons in Hc' as [Hcb _].
      rewrite !lookup_insert_ne by congruence. reflexivity.
Qed.

Lemma unlink_body_spec hl tl m l1 e l2 :
  NoDup (l1 ++ e :: l2) ->
  chain m NULL (l1 ++ e :: l2) NULL ->
  exists m',
    unlink_body (Ptr e)
      (State (Queue_ (first_or NULL (l1 ++ e :: l2)) (last_or NULL (l1 ++ e :: l2)) hl tl) m)
    = Done (tt, State (Queue_ (first_or NULL (l1 ++ l2)) (last_or NULL (l1 ++ l2)) hl tl) m') /\
    chain m' NULL (l1 ++ l2) NULL /\
    is_Some (m' !! e) /\
    dom m' = dom m /\
    (forall b, b ∉ l1 ++ e :: l2 -> m' !! b = m !! b).
Proof.
  intros Hnd Hc.
  apply NoDup_app in Hnd as (Hnd1 & Hdis & Hnd2).
  apply NoDup_cons in Hnd2 as [Hel2 Hnd2].
  assert (e ∉ l1) as Hel1 by (intros Hin; apply (Hdis e Hin); left).
  apply chain_app in Hc as [Hc1 [He Hc2]]. cbn [first_or] in Hc1.
  unfold unlink_body.
  destruct l1 as [|p l1 _] using rev_ind; destruct l2 as [|c l2].
  - cbn [app first_or last_or] in *.
    exists m. split; [steps; prim|]. repeat split; eauto.
  - cbn [app first_or last_or] in *. destruct Hc2 as [Hcc Hc2].
    apply not_elem_of_cons in Hel2 as [Hec Hel2].
    apply NoDup_cons in Hnd2 as [Hcl2 Hnd2].
    eexists. split; [steps; prim|]. cbn [mem]. split; [|split; [|split]].
    + split; [apply lookup_insert_eq|]. apply chain_frame; assumption.
    + some_lookup.
    + apply dom_insert_same. eauto.
    + intros b Hb. apply not_elem_of_cons in Hb as [_ Hb].
      apply not_elem_of_cons in Hb as [Hb _].
      rewrite lookup_insert_ne by congruence. reflexivity.
  - rewrite app_nil_r. rewrite ?last_or_snoc in *.
    cbn [last_or first_or] in *.
    apply chain_app in Hc1 as [Hc1 [Hp _]]. cbn [first_or] in *.
    apply not_elem_of_app in Hel1 as [Hel1 Hep].
    apply not_elem_of_cons in Hep as [Hep _].
    apply NoDup_app in Hnd1 as (Hnd1 & Hdp & _).
    assert (p ∉ l1) as Hpl1 by (intros Hin; apply (Hdp p Hin); left).
    rewrite !first_or_app. cbn [first_or].
    eexists. split; [steps; prim|]. cbn [mem]. split; [|split; [|split]].
    + apply chain_app. split; [apply chain_frame; assumption|].
      split; [apply lookup_insert_eq|exact I].
    + some_lookup.
    + apply dom_insert_same. eauto.
    + intros b Hb. apply not_elem_of_app in Hb as [Hb _].
      apply not_elem_of_app in Hb as [_ Hb].
      apply not_elem_of_cons in Hb as [Hb _].
      rewrite lookup_insert_ne by congruence. reflexivity.
  - rewrite !last_or_app in *. cbn [last_or first_or] in *.
    rewrite !first_or_app. cbn [first_or].
    apply chain_app in Hc1 as [Hc1 [Hp _]]. cbn [first_or] in *.
    destruct Hc2 as [Hcc Hc2].
    apply not_elem_of_app in Hel1 as [Hel1 Hep].
    apply not_elem_of_cons in Hep as [Hep _].
    apply not_elem_of_cons in Hel2 as [Hec Hel2].
    apply NoDup_app in Hnd1 as (Hnd1 & Hdp & _).
    assert (p ∉ l1) as Hpl1 by (intros Hin; apply (Hdp p Hin); left).
    apply NoDup_cons in Hnd2 as [Hcl2 Hnd2].
    assert (p <> c) as Hpc.
    { intros ->. apply (Hdis c); [apply elem_of_app; right; left|right; left]. }
    assert (c ∉ l1) as Hcl1.
    { intros Hin. apply (Hdis c); [apply elem_of_app; left; exact Hin|right; left]. }
    assert (p ∉ l2) as Hpl2.
    { intros Hin. apply (Hdis p); [apply elem_of_app; right; left|right; right; exact Hin]. }
    eexists. split; [steps; prim|]. cbn [mem]. split; [|split; [|split]].
    + rewrite <- app_assoc. apply chain_app. split.
      * cbn [app first_or]. do 2 (apply chain_frame; [assumption|]). exact Hc1.
      * cbn [app chain first_or]. split; [|split].
        -- rewrite lookup_insert_ne by congruence. apply lookup_insert_eq.
        -- apply lookup_insert_eq.
        -- do 2 (apply chain_frame; [assumption|]). exact Hc2.
    + some_lookup.
    + rewrite !dom_insert_same; [reflexivity|..]; some_lookup.
    + intros b Hb. apply not_elem_of_app in Hb as [Hb Hb'].
      apply not_elem_of_app in Hb as [_ Hb].
      apply not_elem_of_cons in Hb as [Hb _].
      apply not_elem_of_cons in Hb' as [_ Hb'].
      apply not_elem_of_cons in Hb' as [Hb' _].
      rewrite !lookup_insert_ne by congruence. reflexivity.
Qed.

Lemma without_notin (e : addr) (l : list addr) : e ∉ l -> without e l = l.
Proof.
  unfold without. induction l as [|a l IH]; intros H; [reflexivity|].
  apply not_elem_of_cons in H as [Hne H].
  rewrite filter_cons_True by congruence. f_equal. apply IH, H.
Qed.

Lemma without_split (e : addr) (l1 l2 : list addr) :
  e ∉ l1 -> e ∉ l2 -> without e (l1 ++ e :: l2) = l1 ++ l2.
Proof.
  intros H1 H2. unfold without. rewrite filter_app, filter_cons_False by tauto.
  fold (without e l1). fold (without e l2).
  rewrite !without_notin by assumption. reflexivity.
Qed.

Lemma split_at (e : addr) (l : list addr) :
  NoDup l -> e ∈ l ->
  exists l1 l2, l = l1 ++ e :: l2 /\ (e ∉ l1) /\ (e ∉ l2).
Proof.
  intros Hnd Hin. apply list_elem_of_split in Hin as (l1 & l2 & ->).
  exists l1, l2. split; [reflexivity|].
  apply NoDup_app in Hnd as (_ & Hdis & Hnd).
  apply NoDup_cons in Hnd as [H2 _]. split; [|exact H2].
  intros Hin. apply (Hdis e Hin). left.
Qed.

Lemma unlink_spec chk s l e :
  queue_inv s l -> e ∈ l ->
  exists s', ISC_QUEUE_UNLINK chk (Ptr e) s = Done (tt, s') /\
    queue_inv s' (without e l) /\
    mem s' !! e = Some (QLink NOT_LINKED NOT_LINKED) /\
    dom (mem s') = dom (mem s) /\
    (forall b, b ∉ l -> mem s' !! b = mem s !! b).
Proof.
  intros (Hnd & Hh & Ht & Hc & Hhl & Htl) Hin.
  destruct (split_at e l Hnd Hin) as (l1 & l2 & -> & H1 & H2).
  rewrite without_split by assumption.
  open_state s. subst.
  destruct (unlink_body_spec MutexHeld MutexHeld m l1 e l2 Hnd Hc)
    as (m' & Hrun & Hc' & [lk' He'] & Hdom & Hframe).
  pose proof (proj1 (chain_app _ _ _ _ _) Hc) as [_ [He _]].
  unfold ISC_QUEUE_UNLINK, ISC_QLINK_INSIST, ISC_QLINK_LINKED.
  assert (e ∉ l1 ++ l2) as Hout by (apply not_elem_of_app; tauto).
  eexists. split.
  { destruct chk; steps.
    all: destruct l2; steps; erewrite bind_eq by exact Hrun; steps; prim. }
  cbn [mem q]. rewrite insert_insert_eq. split; [|split; [|split]].
  - repeat split; try reflexivity.
    + apply NoDup_app in Hnd as (Hnd1 & Hdis & Hnd2).
      apply NoDup_cons in Hnd2 as [_ Hnd2].
      apply NoDup_app. split; [assumption|]. split; [|assumption].
      intros x Hx Hx'. apply (Hdis x Hx). right. exact Hx'.
    + cbn [mem]. apply chain_frame; assumption.
  - apply lookup_insert_eq.
  - rewrite dom_insert_same by eauto. exact Hdom.
  - intros b Hb. rewrite lookup_insert_ne.
    + apply Hframe, Hb.
    + intros ->. apply Hb. apply elem_of_app. right. left.
Qed.

Lemma unlinkif_idle s e lk :
  mem s !! e = Some lk -> next lk = NOT_LINKED ->
  headlock (q s) = MutexFree -> taillock (q s) = MutexFree ->
  ISC_QUEUE_UNLINKIFLINKED (Ptr e) s =
  Done (tt, State (q s) (<[e := QLink NOT_LINKED NOT_LINKED]> (mem s))).
Proof.
  intros He Hn Hhl Htl. open_state s. subst. destruct lk as [p n]. cbn in Hn. subst n.
  unfold ISC_QUEUE_UNLINKIFLINKED, ISC_QLINK_LINKED.
  steps. erewrite store_next_eq by lookup. cbn [prev]. rewrite insert_insert_eq. reflexivity.
Qed.

Lemma unlinkif_linked s l e :
  queue_inv s l -> e ∈ l ->
  exists s', ISC_QUEUE_UNLINKIFLINKED (Ptr e) s = Done (tt, s') /\
    queue_inv s' (without e l) /\
    mem s' !! e = Some (QLink NOT_LINKED NOT_LINKED) /\
    dom (mem s') = dom (mem s) /\
    (forall b, b ∉ l -> mem s' !! b = mem s !! b).
Proof.
  intros (Hnd & Hh & Ht & Hc & Hhl & Htl) Hin.
  destruct (split_at e l Hnd Hin) as (l1 & l2 & -> & H1 & H2).
  rewrite without_split by assumption.
  open_state s. subst.
  destruct (unlink_body_spec MutexHeld MutexHeld m l1 e l2 Hnd Hc)
    as (m' & Hrun & Hc' & [lk' He'] & Hdom & Hframe).
  pose proof (proj1 (chain_app _ _ _ _ _) Hc) as [_ [He _]].
  unfold ISC_QUEUE_UNLINKIFLINKED, ISC_QLINK_LINKED.
  assert (e ∉ l1 ++ l2) as Hout by (apply not_elem_of_app; tauto).
  eexists. split.
  { steps. destruct l2; steps; erewrite bind_eq by exact Hrun; steps; prim. }
  cbn [mem q]. rewrite insert_insert_eq. split; [|split; [|split]].
  - repeat split; try reflexivity.
    + apply NoDup_app in Hnd as (Hnd1 & Hdis & Hnd2).
      apply NoDup_cons in Hnd2 as [_ Hnd2].
      apply NoDup_app. split; [assumption|]. split; [|assumption].
      intros x Hx Hx'. apply (Hdis x Hx). right. exact Hx'.
    + cbn [mem]. apply chain_frame; assumption.
  - apply lookup_insert_eq.
  - rewrite dom_insert_same by eauto. exact Hdom.
  - intros b Hb. rewrite lookup_insert_ne.
    + apply Hframe, Hb.
    + intros ->. apply Hb. apply elem_of_app. right. left.
Qed.

Lemma init_spec s :
  ISC_QUEUE_INIT s = Done (tt, State (Queue_ NULL NULL MutexFree MutexFree) (mem s)) /\
  queue_inv (State (Queue_ NULL NULL MutexFree MutexFree) (mem s)) [].
Proof.
  split; [reflexivity|]. repeat split; try reflexivity. apply NoDup_nil_2.
Qed.

Lemma queue_inv_ends s l : queue_inv s l -> ends_ok s l.
Proof.
  intros (Hnd & Hh & Ht & Hc & Hhl & Htl). open_state s. subst.
  unfold ends_ok. cbn [q head tail]. split; [|split; [|split]].
  - destruct l; cbn; split; try tauto; discriminate.
  - destruct l as [|x l _] using rev_ind; [cbn; tauto|].
    rewrite last_or_snoc. split; [|discriminate].
    intros E. destruct l; discriminate.
  - unfold ISC_QUEUE_EMPTY. steps. destruct l; reflexivity.
  - intros Hne. destruct l as [|x l _] using rev_ind; [congruence|].
    rewrite last_or_snoc.
    pose proof (proj1 (chain_app _ _ _ _ _) Hc) as [_ [Hx _]].
    rewrite first_or_app. cbn [first_or]. split.
    + destruct l as [|y l]; [cbn [first_or]|destruct Hc as [Hy _]; cbn [first_or]];
        erewrite load_prev_eq by eassumption; reflexivity.
    + erewrite load_next_eq by eassumption. reflexivity.
Qed.

(** *** No assertion without [ISC_QUEUE_CHECKINIT] *)


Lemma no_assert_bind {A B} (c : M A) (k : A -> M B) :
  no_assert c -> (forall a, no_assert (k a)) -> no_assert (bind c k).
Proof.
  intros Hc Hk s. unfold bind. specialize (Hc s).
  destruct (c s) as [[a s']|f]; [apply Hk|congruence].
Qed.

Lemma no_assert_ret {A} (a : A) : no_assert (ret a).
Proof. intros s. discriminate. Qed.

Lemma no_assert_load_link p : no_assert (load_link p).
Proof. intros s. unfold load_link. destruct p; try discriminate. destruct (mem s !! a); discriminate. Qed.

Lemma no_assert_store_link p lk : no_assert (store_link p lk).
Proof. intros s. unfold store_link. destruct p; try discriminate. destruct (mem s !! a); discriminate. Qed.

Lemma no_assert_LOCK l : no_assert (LOCK l).
Proof. intros s. unfold LOCK. destruct (get_lock l s); discriminate. Qed.

Lemma no_assert_UNLOCK l : no_assert (UNLOCK l).
Proof. intros s. unfold UNLOCK. destruct (get_lock l s); discriminate. Qed.

Ltac no_assert_tac :=
  repeat first
    [ apply no_assert_ret
    | apply no_assert_LOCK
    | apply no_assert_UNLOCK
    | apply no_assert_load_link
    | apply no_assert_store_link
    | (intros ?; discriminate)
    | apply no_assert_bind; [|intros ?]
    | match goal with |- no_assert (if ?b then _ else _) => destruct b end ].

Lemma push_unchecked_no_assert elt : no_assert (ISC_QUEUE_PUSH false elt).
Proof.
  unfold ISC_QUEUE_PUSH, ISC_QLINK_INSIST, store_prev, store_next, get_tail, get_head,
    set_tail, set_head.
  no_assert_tac.
Qed.

Lemma sample_one_inv : queue_inv sample_one [1%positive].
Proof. repeat split; try reflexivity. apply NoDup_singleton. Qed.

Lemma sample_empty_inv : queue_inv sample_empty [].
Proof. repeat split; try reflexivity. apply NoDup_nil_2. Qed.

(** C3.  On a queue whose [head] is [NULL], [pop] gives back [NULL] (the
    "empty" answer) and the state it leaves is the state it found: head, tail,
    locks and every element.  It stops neither on an assertion nor on a bad
    pointer, whatever the state of the locks. *)
Theorem pop_on_empty_queue (s : state) :
  head (q s) = NULL ->
  (headlock (q s) = MutexFree -> ISC_QUEUE_POP s = Done (NULL, s)) /\
  ISC_QUEUE_POP s <> Halt AssertionFailed /\
  ISC_QUEUE_POP s <> Halt InvalidAccess.
Proof.
  intros Hh. split; [intros Hl; now apply pop_empty|].
  open_state s. subst. unfold ISC_QUEUE_POP, bind, LOCK; cbn.
  destruct hl; cbn; split; discriminate.
Qed.

Lemma pop_on_empty_queue_witness : ISC_QUEUE_POP sample_empty = Done (NULL, sample_empty).
Proof.
  apply (pop_on_empty_queue sample_empty); reflexivity.
Defined.

(** C4, counterexample.  On a queue that already holds element 1, pushing the
    not-linked element 2 and popping at once returns element 1, and the queue
    is not empty afterwards. *)
Lemma push_pop_on_nonempty_queue :
  queue_inv sample_one [1%positive] /\
  ISC_QLINK_LINKED (Ptr 2%positive) sample_one = Done (false, sample_one) /\
  exists s',
    (run ISC_QUEUE_PUSH true (Ptr 2%positive); ISC_QUEUE_POP) sample_one
      = Done (Ptr 1%positive, s') /\
    Ptr 1%positive <> Ptr 2%positive /\
    ISC_QUEUE_EMPTY s' = Done (false, s').
Proof.
  split; [exact sample_one_inv|]. split; [reflexivity|].
  eexists. split; [vm_compute; reflexivity|]. split; [discriminate|reflexivity].
Qed.

(** C4, amended.  On an empty queue (head and tail [NULL]) and for every
    element [e] that exists and is not linked, [push] followed at once by
    [pop] returns [e]; both link fields of [e] are the not-linked marker
    again; the queue is empty afterwards, with the head, tail and locks it
    had before, and no other element has been touched. *)
Theorem push_then_pop_on_empty (chk : bool) (s : state) (e : addr) (lk : qlink) :
  queue_inv s [] -> mem s !! e = Some lk -> next lk = NOT_LINKED ->
  let s' := State (q s) (<[e := unlinked]> (mem s)) in
  (run ISC_QUEUE_PUSH chk (Ptr e); ISC_QUEUE_POP) s = Done (Ptr e, s') /\
  mem s' !! e = Some (QLink NOT_LINKED NOT_LINKED) /\
  ISC_QUEUE_EMPTY s' = Done (true, s') /\
  head (q s') = NULL /\ tail (q s') = NULL.
Proof.
  intros (Hnd & Hh & Ht & Hc & Hhl & Htl) He Hn. cbn [first_or last_or] in *.
  open_state s. subst. destruct lk as [ep en]. cbn in Hn. subst en.
  cbn zeta. split; [|split; [apply lookup_insert_eq|repeat split]].
  unfold ISC_QUEUE_PUSH, ISC_QLINK_INSIST, ISC_QLINK_LINKED, ISC_QUEUE_POP.
  destruct chk; steps; rewrite !insert_insert_eq; reflexivity.
Qed.

Lemma push_then_pop_on_empty_witness :
  exists s', (run ISC_QUEUE_PUSH true (Ptr 2%positive); ISC_QUEUE_POP) sample_empty
             = Done (Ptr 2%positive, s') /\
             ISC_QUEUE_EMPTY s' = Done (true, s').
Proof.
  eexists.
  pose proof (push_then_pop_on_empty true sample_empty 2%positive unlinked
                sample_empty_inv eq_refl eq_refl) as (H1 & _ & H3 & _).
  split; [exact H1|exact H3].
Defined.

(** *** The list model *)

Lemma fifo_model_order l ops :
  elements_of (fst (fifo_model l ops)) ++ snd (fifo_model l ops) = l ++ pushed ops.
Proof.
  revert l. induction ops as [|[e|] ops IH]; intros l; cbn.
  - rewrite app_nil_r. reflexivity.
  - rewrite IH, <- app_assoc. reflexivity.
  - specialize (IH (drop 1 l)). destruct (fifo_model (drop 1 l) ops) as [rs l'].
    cbn in *. destruct l as [|a l]; cbn in *; [exact IH|].
    rewrite drop_0 in IH. f_equal. exact IH.
Qed.

Lemma idle_after_push s s' l e :
  idle_unlinked s l ->
  (forall a, a ∉ l -> a <> e -> mem s' !! a = mem s !! a) ->
  idle_unlinked s' (l ++ [e]).
Proof.
  intros Hidle Hframe a lk Ha Hout.
  apply not_elem_of_app in Hout as [Hl He].
  apply not_elem_of_cons in He as [He _].
  rewrite Hframe in Ha by assumption. eapply Hidle; eassumption.
Qed.

Lemma idle_after_pop s s' a l :
  idle_unlinked s (a :: l) ->
  mem s' !! a = Some (QLink NOT_LINKED NOT_LINKED) ->
  (forall b, b ∉ a :: l -> mem s' !! b = mem s !! b) ->
  idle_unlinked s' l.
Proof.
  intros Hidle Ha Hframe b lk Hb Hout.
  destruct (decide (b = a)) as [->|Hne].
  - rewrite Ha in Hb. injection Hb as <-. reflexivity.
  - assert (b ∉ a :: l) as Hout' by (apply not_elem_of_cons; tauto).
    rewrite Hframe in Hb by assumption. eapply Hidle; eassumption.
Qed.

(** C5.  Run sequentially, any sequence of pushes and pops behaves as the
    first-in first-out list of the specification: each pop returns the
    earliest-pushed element still in the queue ([NULL] when there is none),
    each push appends at the tail, and the elements popped, followed by those
    still queued at the end, are the elements the queue held at the start
    followed by the elements pushed, in push order. *)
Theorem queue_is_fifo (chk : bool) (ops : list fifo_op) (s : state) (l : list addr) :
  queue_inv s l -> idle_unlinked s l -> pushes_allowed (dom (mem s)) l ops ->
  exists s',
    run_ops chk ops s = Done (fst (fifo_model l ops), s') /\
    queue_inv s' (snd (fifo_model l ops)) /\
    idle_unlinked s' (snd (fifo_model l ops)) /\
    elements_of (fst (fifo_model l ops)) ++ snd (fifo_model l ops) = l ++ pushed ops.
Proof.
  intros Hinv Hidle Hok.
  cut (exists s', run_ops chk ops s = Done (fst (fifo_model l ops), s') /\
                  queue_inv s' (snd (fifo_model l ops)) /\
                  idle_unlinked s' (snd (fifo_model l ops))).
  { intros (s' & H1 & H2 & H3). exists s'. split_and!; try assumption.
    apply fifo_model_order. }
  revert s l Hinv Hidle Hok. induction ops as [|[e|] ops IH]; intros s l Hinv Hidle Hok.
  - exists s. split_and!; [reflexivity|assumption|assumption].
  - destruct Hok as (Hd & Hout & Hok). apply elem_of_dom in Hd as [lk Hlk].
    pose proof (Hidle e lk Hlk Hout) as Hn.
    destruct (push_spec chk s l e lk Hinv Hlk Hn) as (s1 & Hrun & Hinv1 & Hdom & Hframe).
    rewrite <- Hdom in Hok.
    destruct (IH s1 (l ++ [e]) Hinv1 (idle_after_push _ _ _ _ Hidle Hframe) Hok)
      as (s' & Hrun' & Hinv' & Hidle').
    exists s'. cbn [run_ops fifo_model]. rewrite (bind_eq _ _ _ _ _ Hrun).
    split_and!; assumption.
  - cbn [pushes_allowed] in Hok. cbn [run_ops fifo_model].
    destruct l as [|a l].
    + assert (ISC_QUEUE_POP s = Done (NULL, s)) as Hrun.
      { destruct Hinv as (_ & Hh & _ & _ & Hhl & _). now apply pop_empty. }
      destruct (IH s [] Hinv Hidle Hok) as (s' & Hrun' & Hinv' & Hidle').
      cbn [drop] in *. destruct (fifo_model [] ops) as [rs l'] eqn:E. cbn [fst snd] in *.
      exists s'. rewrite (bind_eq _ _ _ _ _ Hrun), (bind_eq _ _ _ _ _ Hrun').
      split_and!; [reflexivity|assumption|assumption].
    + destruct (pop_spec s a l Hinv) as (s1 & Hrun & Hinv1 & Ha & Hdom & Hframe).
      cbn [drop] in *. rewrite drop_0 in *. rewrite <- Hdom in Hok.
      destruct (IH s1 l Hinv1 (idle_after_pop _ _ _ _ Hidle Ha Hframe) Hok)
        as (s' & Hrun' & Hinv' & Hidle').
      destruct (fifo_model l ops) as [rs l'] eqn:E. cbn [fst snd] in *.
      exists s'. rewrite (bind_eq _ _ _ _ _ Hrun), (bind_eq _ _ _ _ _ Hrun').
      split_and!; [reflexivity|assumption|assumption].
Qed.

Lemma sample_empty_idle : idle_unlinked sample_empty [].
Proof.
  intros a lk H _. unfold sample_empty in H. cbn [mem] in H.
  repeat (apply lookup_insert_Some in H as [[_ <-]|[_ H]]; [reflexivity|]).
  apply lookup_singleton_Some in H as [_ <-]. reflexivity.
Qed.

Lemma sample_dom a :
  a ∈ [1; 2; 3]%positive -> a ∈ dom (mem sample_empty).
Proof.
  intros H. apply elem_of_dom.
  repeat (apply elem_of_cons in H as [->|H]; [eexists; reflexivity|]).
  inversion H.
Qed.

Lemma queue_is_fifo_witness :
  exists s',
    run_ops true [Push 1; Push 2; Pop; Push 3; Pop; Pop; Pop]%positive sample_empty
    = Done ([Ptr 1; Ptr 2; Ptr 3; NULL]%positive, s').
Proof.
  destruct (queue_is_fifo true [Push 1; Push 2; Pop; Push 3; Pop; Pop; Pop]%positive
              sample_empty [] sample_empty_inv sample_empty_idle) as (s' & H & _).
  - cbn. split_and!; try exact I;
      try (apply sample_dom; apply (bool_decide_unpack _); reflexivity);
      apply (bool_decide_unpack _); reflexivity.
  - exists s'. exact H.
Defined.

(** C6, counterexample.  Compiled without [ISC_QUEUE_CHECKINIT], [push] of
    element 1, which is linked (it is the one element of the queue), runs to
    its end: nothing is asserted. *)
Lemma push_linked_unchecked_returns :
  queue_inv sample_one [1%positive] /\
  ISC_QLINK_LINKED (Ptr 1%positive) sample_one = Done (true, sample_one) /\
  is_done (ISC_QUEUE_PUSH false (Ptr 1%positive) sample_one) = true.
Proof.
  split; [exact sample_one_inv|]. split; reflexivity.
Qed.

(** C6, amended.  Compiled with [ISC_QUEUE_CHECKINIT], [push] of an element
    that is currently linked stops on the failed assertion, for every queue;
    compiled without it, the check is not there and no [push] stops on an
    assertion. *)
Theorem push_linked_faults_when_checked (s : state) (e : addr) (lk : qlink) :
  mem s !! e = Some lk -> next lk <> NOT_LINKED ->
  faults (ISC_QUEUE_PUSH true (Ptr e) s) /\
  ~ faults (ISC_QUEUE_PUSH false (Ptr e) s).
Proof.
  intros He Hn. split; [|apply push_unchecked_no_assert].
  open_state s. unfold faults, ISC_QUEUE_PUSH, ISC_QLINK_INSIST, ISC_QLINK_LINKED.
  steps. apply bind_halt. destruct (next lk); [reflexivity|congruence|reflexivity].
Qed.

Lemma push_linked_faults_when_checked_witness :
  faults (ISC_QUEUE_PUSH true (Ptr 1%positive) sample_one).
Proof.
  apply (push_linked_faults_when_checked sample_one 1%positive (QLink NULL NULL)).
  - reflexivity.
  - discriminate.
Defined.

Lemma queue_inv_frame s l e lk :
  queue_inv s l -> e ∉ l -> queue_inv (State (q s) (<[e := lk]> (mem s))) l.
Proof.
  intros (Hnd & Hh & Ht & Hc & Hhl & Htl) He.
  split_and!; try assumption. cbn [mem]. apply chain_frame; assumption.
Qed.

Lemma queue_inv_linked s l e lk :
  queue_inv s l -> mem s !! e = Some lk -> next lk = NOT_LINKED -> e ∉ l.
Proof.
  intros (_ & _ & _ & Hc & _) He Hn. eapply chain_linked; eassumption.
Qed.

(** C7.  Each queue operation, called as it asks to be called, takes a
    well-formed queue to a well-formed queue ([init] makes one out of
    anything); and in a well-formed queue the queue is empty exactly when
    [head] and [tail] are both [NULL], while in a non-empty one the head
    element has [prev == NULL] and the tail element has [next == NULL]. *)
Theorem queue_invariant_preserved (chk : bool) (o : queue_op) (s : state) (l : list addr) :
  op_requires o s l ->
  exists r s',
    run_op chk o s = Done (r, s') /\
    queue_inv s' (op_contents o l) /\
    ends_ok s' (op_contents o l).
Proof.
  intros Hreq.
  cut (exists r s', run_op chk o s = Done (r, s') /\ queue_inv s' (op_contents o l)).
  { intros (r & s' & Hrun & Hinv). exists r, s'.
    split_and!; [assumption..|]. apply queue_inv_ends, Hinv. }
  destruct o as [|e| |e|e]; cbn [op_requires op_contents run_op] in *.
  - destruct (init_spec s) as [Hrun Hinv]. do 2 eexists.
    rewrite (bind_eq _ _ _ _ _ Hrun). split; [reflexivity|exact Hinv].
  - destruct Hreq as (Hinv & lk & He & Hn).
    destruct (push_spec chk s l e lk Hinv He Hn) as (s' & Hrun & Hinv' & _).
    do 2 eexists. rewrite (bind_eq _ _ _ _ _ Hrun). split; [reflexivity|exact Hinv'].
  - destruct l as [|a l].
    + exists NULL, s. split; [|exact Hreq].
      destruct Hreq as (_ & Hh & _ & _ & Hhl & _). now apply pop_empty.
    + destruct (pop_spec s a l Hreq) as (s' & Hrun & Hinv' & _).
      exists (Ptr a), s'. cbn [drop]. rewrite drop_0. split; assumption.
  - destruct Hreq as (Hinv & Hin).
    destruct (unlink_spec chk s l e Hinv Hin) as (s' & Hrun & Hinv' & _).
    do 2 eexists. rewrite (bind_eq _ _ _ _ _ Hrun). split; [reflexivity|exact Hinv'].
  - destruct Hreq as (Hinv & lk & He & Hin).
    destruct (decide (next lk = NOT_LINKED)) as [Hn|Hn].
    + pose proof (queue_inv_linked s l e lk Hinv He Hn) as Hout.
      assert (ISC_QUEUE_UNLINKIFLINKED (Ptr e) s
              = Done (tt, State (q s) (<[e := QLink NOT_LINKED NOT_LINKED]> (mem s)))) as Hrun.
      { destruct Hinv as (_ & _ & _ & _ & Hhl & Htl). eapply unlinkif_idle; eassumption. }
      do 2 eexists. rewrite (bind_eq _ _ _ _ _ Hrun). split; [reflexivity|].
      rewrite without_notin by assumption. apply queue_inv_frame; assumption.
    + destruct (unlinkif_linked s l e Hinv (Hin Hn)) as (s' & Hrun & Hinv' & _).
      do 2 eexists. rewrite (bind_eq _ _ _ _ _ Hrun). split; [reflexivity|exact Hinv'].
Qed.

Lemma queue_invariant_preserved_witness :
  exists r s',
    run_op true (OpUnlink 1%positive) sample_one = Done (r, s') /\
    queue_inv s' [] /\ ends_ok s' [].
Proof.
  apply (queue_invariant_preserved true (OpUnlink 1%positive) sample_one [1%positive]).
  split; [exact sample_one_inv|]. apply list_elem_of_singleton. reflexivity.
Defined.

(** C8.  On a queue nobody is working on and an element [e] that is not
    linked, [unlink_if_linked] changes nothing of the queue: [head], [tail]
    and the locks are what they were, and so is the link of every element
    other than [e], in particular of every element in the queue, which stays
    well-formed with the same contents; [e] itself is left with the
    not-linked marker in both fields.  A second run changes nothing at all,
    and neither does a run that follows an [unlink] of the element. *)
Theorem unlink_if_linked_on_idle_element (s : state) (e : addr) (lk : qlink) :
  mem s !! e = Some lk -> next lk = NOT_LINKED ->
  headlock (q s) = MutexFree -> taillock (q s) = MutexFree ->
  let s' := State (q s) (<[e := unlinked]> (mem s)) in
  ISC_QUEUE_UNLINKIFLINKED (Ptr e) s = Done (tt, s') /\
  (forall a, a <> e -> mem s' !! a = mem s !! a) /\
  (forall l, queue_inv s l ->
     queue_inv s' l /\ forall a, a ∈ l -> mem s' !! a = mem s !! a) /\
  ISC_QUEUE_UNLINKIFLINKED (Ptr e) s' = Done (tt, s') /\
  (forall chk s0 l0, queue_inv s0 l0 -> e ∈ l0 ->
     exists s1, ISC_QUEUE_UNLINK chk (Ptr e) s0 = Done (tt, s1) /\
                ISC_QUEUE_UNLINKIFLINKED (Ptr e) s1 = Done (tt, s1)).
Proof.
  intros He Hn Hhl Htl. cbn zeta. split_and!.
  - eapply unlinkif_idle; eassumption.
  - intros a Ha. cbn [mem]. rewrite lookup_insert_ne by congruence. reflexivity.
  - intros l Hinv. pose proof (queue_inv_linked s l e lk Hinv He Hn) as Hout.
    split; [apply queue_inv_frame; assumption|].
    intros a Ha. cbn [mem]. rewrite lookup_insert_ne; [reflexivity|].
    intros ->. contradiction.
  - erewrite unlinkif_idle; cbn [q mem];
      [|apply lookup_insert_eq|reflexivity|assumption|assumption].
    rewrite insert_insert_eq. reflexivity.
  - intros chk s0 l0 Hinv Hin.
    destruct (unlink_spec chk s0 l0 e Hinv Hin) as (s1 & Hrun & Hinv1 & He1 & _).
    exists s1. split; [exact Hrun|].
    destruct Hinv1 as (_ & _ & _ & _ & Hhl1 & Htl1).
    erewrite unlinkif_idle; [|exact He1|reflexivity|assumption|assumption].
    destruct s1 as [q1 m1]. cbn [q mem] in *. rewrite insert_id by exact He1. reflexivity.
Qed.

Lemma unlink_if_linked_on_idle_element_witness :
  ISC_QUEUE_UNLINKIFLINKED (Ptr 2%positive) sample_one = Done (tt, sample_one).
Proof.
  pose proof (unlink_if_linked_on_idle_element sample_one 2%positive unlinked
                eq_refl eq_refl eq_refl eq_refl) as [H _].
  rewrite H. reflexivity.
Defined.

End QueueFacts.

(** ** More on the reference counter *)

Module RefcountMore.
Import Refcount RefcountFacts.

Lemma set_refs_same rp : set_refs rp (refs rp) = rp.
Proof. destruct rp; reflexivity. Qed.

Lemma set_refs_twice rp a b : set_refs (set_refs rp a) b = set_refs rp b.
Proof. reflexivity. Qed.

Lemma repeat_increment impl tp k rp :
  (impl = Locked -> lock rp = MutexFree) ->
  0 < refs rp -> refs rp + Z.of_nat k <= INT32_MAX ->
  repeat_op (fun r => isc_refcount_increment impl r tp) k rp =
  Done (set_refs rp (refs rp + Z.of_nat k)).
Proof.
  revert rp. induction k as [|k IH]; intros rp Hm Hpos Hmax.
  - cbn. rewrite Z.add_0_r, set_refs_same. reflexivity.
  - cbn [repeat_op]. rewrite increment_done by assumption. cbn [obind].
    assert (wrap32 (refs rp + 1) = refs rp + 1) as E.
    { apply wrap32_id. unfold int32_range, INT32_MIN, INT32_MAX in *. lia. }
    rewrite E, IH; cbn [refs lock set_refs]; try assumption; try lia.
    f_equal. f_equal. lia.
Qed.

Lemma repeat_decrement impl tp k rp :
  (impl = Locked -> lock rp = MutexFree) ->
  Z.of_nat k <= refs rp -> refs rp <= INT32_MAX ->
  repeat_op (fun r => isc_refcount_decrement impl r tp) k rp =
  Done (set_refs rp (refs rp - Z.of_nat k)).
Proof.
  revert rp. induction k as [|k IH]; intros rp Hm Hk Hmax.
  - cbn. rewrite Z.sub_0_r, set_refs_same. reflexivity.
  - cbn [repeat_op]. rewrite decrement_done by (assumption || lia). cbn [obind].
    assert (wrap32 (refs rp - 1) = refs rp - 1) as E.
    { apply wrap32_id. unfold int32_range, INT32_MIN, INT32_MAX in *. lia. }
    rewrite E, IH; cbn [refs lock set_refs]; try assumption; try lia.
    f_equal. f_equal. lia.
Qed.

(** X1.  References taken are given back: on a counter above 0, [k] calls of
    [increment] followed by [k] calls of [decrement] all succeed and leave
    the counter exactly as it was, as long as the count stays within the
    32-bit member; in between the count is prior+k. *)
Theorem increments_then_decrements (impl : implementation) (tp : bool) (k : nat)
    (rp : isc_refcount_t) :
  (impl = Locked -> lock rp = MutexFree) ->
  0 < refs rp -> refs rp + Z.of_nat k <= INT32_MAX ->
  repeat_op (fun r => isc_refcount_increment impl r tp) k rp =
    Done (set_refs rp (refs rp + Z.of_nat k)) /\
  obind (repeat_op (fun r => isc_refcount_increment impl r tp) k rp)
        (repeat_op (fun r => isc_refcount_decrement impl r tp) k) = Done rp.
Proof.
  intros Hm Hpos Hmax. rewrite repeat_increment by assumption.
  split; [reflexivity|]. cbn [obind].
  rewrite repeat_decrement; cbn [refs lock set_refs]; try assumption; try lia.
  destruct rp as [r m]. unfold set_refs. cbn [refs lock]. do 2 f_equal. lia.
Qed.

Lemma increments_then_decrements_witness :
  obind (repeat_op (fun r => isc_refcount_increment Locked r true) 3 (Ref 1 MutexFree))
        (repeat_op (fun r => isc_refcount_decrement Locked r true) 3)
  = Done (Ref 1 MutexFree).
Proof.
  apply (increments_then_decrements Locked true 3 (Ref 1 MutexFree)).
  - reflexivity.
  - reflexivity.
  - unfold INT32_MAX. simpl. lia.
Defined.

(** X2.  The four bodies of the header are one counter: on a counter that is
    ready ([refs] within 32 bits, the mutex of the locked layout free),
    [increment0], [increment] and [decrement] return the same counter and
    write the same value, or stop on the same assertion, whichever body is
    compiled in. *)
Theorem implementations_agree (impl : implementation) (rp : isc_refcount_t) (tp : bool) :
  ready impl rp ->
  isc_refcount_increment0 impl rp tp = isc_refcount_increment0 NoThreads rp tp /\
  isc_refcount_increment impl rp tp = isc_refcount_increment NoThreads rp tp /\
  isc_refcount_decrement impl rp tp = isc_refcount_decrement NoThreads rp tp.
Proof.
  intros [_ Hm]. split; [|split].
  - rewrite !increment0_done by (assumption || discriminate). reflexivity.
  - destruct (Z.lt_ge_cases 0 (refs rp)).
    + rewrite !increment_done by (assumption || discriminate). reflexivity.
    + rewrite !increment_faults by (assumption || discriminate). reflexivity.
  - destruct (Z.lt_ge_cases 0 (refs rp)).
    + rewrite !decrement_done by (assumption || discriminate). reflexivity.
    + rewrite !decrement_faults by (assumption || discriminate). reflexivity.
Qed.

Lemma implementations_agree_witness :
  isc_refcount_decrement Locked (Ref 0 MutexFree) true
  = isc_refcount_decrement NoThreads (Ref 0 MutexFree) true.
Proof.
  apply (implementations_agree Locked (Ref 0 MutexFree) true).
  split; [unfold int32_range, INT32_MIN, INT32_MAX; simpl; lia|reflexivity].
Defined.

(** X3.  [destroy] succeeds exactly on the counters [isc_refcount_current]
    reads as 0, in every layout, and stops on the assertion on all others. *)
Theorem destroy_iff_current_zero (impl : implementation) (rp : isc_refcount_t) :
  ready impl rp ->
  (is_done (isc_refcount_destroy impl rp) = true <-> isc_refcount_current impl rp = 0) /\
  (isc_refcount_current impl rp <> 0 -> faults (isc_refcount_destroy impl rp)).
Proof.
  intros [Hr Hm].
  assert (isc_refcount_current impl rp = uint32 (refs rp)) as Ec by (destruct impl; reflexivity).
  assert (uint32 (refs rp) = 0 <-> refs rp = 0) as Ez.
  { pose proof (uint32_zero _ Hr) as E. split; intros H.
    - apply Z.eqb_eq. rewrite <- E. apply Z.eqb_eq, H.
    - apply Z.eqb_eq. rewrite E. apply Z.eqb_eq, H. }
  rewrite Ec, Ez. split.
  - split.
    + intros Hd. destruct (Z.eq_dec (refs rp) 0) as [|Hne]; [assumption|].
      rewrite destroy_faults in Hd by assumption. discriminate.
    + intros H0. rewrite destroy_zero by assumption. reflexivity.
  - intros Hne. apply destroy_faults; [assumption|tauto].
Qed.

Lemma destroy_iff_current_zero_witness :
  is_done (isc_refcount_destroy Locked (Ref 0 MutexFree)) = true.
Proof.
  apply (destroy_iff_current_zero Locked (Ref 0 MutexFree)).
  - split; [unfold int32_range, INT32_MIN, INT32_MAX; simpl; lia|reflexivity].
  - reflexivity.
Defined.

End RefcountMore.

(** ** More on the queue *)

Module QueueMore.
Import Queue QueueFacts.
Local Open Scope queue_scope.

Lemma chain_member_next m p l n a :
  chain m p l n -> a ∈ l -> n <> NOT_LINKED ->
  exists lk, m !! a = Some lk /\ next lk <> NOT_LINKED.
Proof.
  intros Hc Hin Hn. destruct (chain_lookup _ _ _ _ _ Hc Hin) as (lk & E & [H|[b H]]).
  - exists lk. split; [exact E|congruence].
  - exists lk. split; [exact E|congruence].
Qed.

(** X4.  The linked test tells membership: in a well-formed queue whose
    outside elements carry the not-linked marker, [ISC_QLINK_LINKED] answers
    true for exactly the elements that are in the queue, and reading it
    changes nothing. *)
Theorem linked_iff_in_queue (s : state) (l : list addr) (a : addr) :
  queue_inv s l -> idle_unlinked s l -> a ∈ dom (mem s) ->
  ISC_QLINK_LINKED (Ptr a) s = Done (bool_decide (a ∈ l), s).
Proof.
  intros Hinv Hidle Ha. apply elem_of_dom in Ha as [lk Hlk].
  destruct Hinv as (_ & _ & _ & Hc & _). open_state s.
  unfold ISC_QLINK_LINKED. steps. unfold ret. do 2 f_equal.
  destruct (decide (a ∈ l)) as [Hin|Hout].
  - rewrite bool_decide_eq_true_2 by assumption.
    destruct (chain_member_next _ _ _ _ _ Hc Hin ltac:(discriminate)) as (lk' & E & Hn).
    assert (lk' = lk) by congruence. subst.
    destruct (next lk); [reflexivity|congruence|reflexivity].
  - rewrite bool_decide_eq_false_2 by assumption.
    rewrite (Hidle a lk Hlk Hout). reflexivity.
Qed.

Lemma linked_iff_in_queue_witness :
  ISC_QLINK_LINKED (Ptr 1%positive) sample_one = Done (true, sample_one) /\
  ISC_QLINK_LINKED (Ptr 2%positive) sample_one = Done (false, sample_one).
Proof.
  assert (idle_unlinked sample_one [1%positive]) as Hidle.
  { intros a lk H Hout. unfold sample_one in H. cbn [mem] in H.
    repeat (apply lookup_insert_Some in H as [[_ <-]|[_ H]]; [reflexivity|]).
    apply lookup_singleton_Some in H as [<- _].
    exfalso. apply Hout. left. }
  split.
  - apply (linked_iff_in_queue sample_one [1%positive] 1%positive sample_one_inv Hidle).
    apply elem_of_dom. eexists. reflexivity.
  - apply (linked_iff_in_queue sample_one [1%positive] 2%positive sample_one_inv Hidle).
    apply elem_of_dom. eexists. reflexivity.
Defined.

(** X5.  [ISC_QLINK_INIT] makes an element ready to be pushed: run on an
    existing element that is outside a well-formed queue, whatever its link
    held, it leaves the queue well-formed with the same contents and the
    element not linked, and the [push] that follows succeeds, with or without
    [ISC_QUEUE_CHECKINIT], and appends the element.  On a pointer that is not
    the address of an element it stops on the bad access. *)
Theorem qlink_init_then_push (chk : bool) (s : state) (l : list addr) (e : addr) :
  queue_inv s l -> e ∉ l -> e ∈ dom (mem s) ->
  let s1 := State (q s) (<[e := unlinked]> (mem s)) in
  ISC_QLINK_INIT (Ptr e) s = Done (tt, s1) /\
  queue_inv s1 l /\
  ISC_QLINK_LINKED (Ptr e) s1 = Done (false, s1) /\
  (exists s2, ISC_QUEUE_PUSH chk (Ptr e) s1 = Done (tt, s2) /\ queue_inv s2 (l ++ [e])) /\
  ISC_QLINK_INIT NULL s = Halt InvalidAccess /\
  ISC_QLINK_INIT NOT_LINKED s = Halt InvalidAccess.
Proof.
  intros Hinv Hout Hd. apply elem_of_dom in Hd as [lk Hlk]. cbn zeta.
  assert (queue_inv (State (q s) (<[e := unlinked]> (mem s))) l) as Hinv1
    by (apply queue_inv_frame; assumption).
  split_and!; [| exact Hinv1 | | | reflexivity | reflexivity].
  - open_state s. unfold ISC_QLINK_INIT. steps.
    erewrite store_next_eq by lookup. cbn [prev]. rewrite insert_insert_eq. reflexivity.
  - open_state s. unfold ISC_QLINK_LINKED. steps. reflexivity.
  - destruct (push_spec chk _ l e unlinked Hinv1) as (s2 & Hrun & Hinv2 & _).
    + cbn [mem]. apply lookup_insert_eq.
    + reflexivity.
    + exists s2. split; assumption.
Qed.

Lemma qlink_init_then_push_witness :
  exists s2,
    (run ISC_QLINK_INIT (Ptr 2%positive); ISC_QUEUE_PUSH true (Ptr 2%positive)) sample_one
    = Done (tt, s2) /\ queue_inv s2 [1; 2]%positive.
Proof.
  destruct (qlink_init_then_push true sample_one [1%positive] 2%positive sample_one_inv)
    as (H1 & _ & _ & (s2 & H2 & H3) & _).
  - apply (bool_decide_unpack _). reflexivity.
  - apply elem_of_dom. eexists. reflexivity.
  - exists s2. rewrite (bind_eq _ _ _ _ _ H1). split; [exact H2|exact H3].
Defined.

(** X6.  [ISC_QUEUE_DESTROY] destroys the two locks and touches nothing else.
    On an empty queue it returns; on a queue that holds an element it stops
    on the assertion when compiled with [ISC_QUEUE_CHECKINIT], and without it
    destroys the locks all the same, leaving the elements linked. *)
Theorem queue_destroy_behaviour (s : state) (l : list addr) :
  queue_inv s l ->
  let s' := State (Queue_ (head (q s)) (tail (q s)) MutexDestroyed MutexDestroyed) (mem s) in
  (l = [] -> forall chk, ISC_QUEUE_DESTROY chk s = Done (tt, s')) /\
  (l <> [] -> faults (ISC_QUEUE_DESTROY true s)) /\
  ISC_QUEUE_DESTROY false s = Done (tt, s').
Proof.
  intros (_ & Hh & _ & _ & Hhl & Htl). open_state s. subst. cbn zeta.
  unfold ISC_QUEUE_DESTROY, ISC_QLINK_INSIST, ISC_QUEUE_EMPTY, faults.
  split_and!.
  - intros -> chk. destruct chk; steps; reflexivity.
  - intros Hne. destruct l as [|a l]; [congruence|]. steps. reflexivity.
  - steps. reflexivity.
Qed.

Lemma queue_destroy_behaviour_witness :
  faults (ISC_QUEUE_DESTROY true sample_one) /\
  is_done (ISC_QUEUE_DESTROY true sample_empty) = true.
Proof.
  split.
  - apply (queue_destroy_behaviour sample_one [1%positive] sample_one_inv). discriminate.
  - rewrite (proj1 (queue_destroy_behaviour sample_empty [] sample_empty_inv) eq_refl true).
    reflexivity.
Defined.

(** X7.  [ISC_QUEUE_UNLINK] of an element that is not linked (both fields at
    the marker, as [ISC_QLINK_INIT] and the removals leave it) never returns:
    with [ISC_QUEUE_CHECKINIT] it stops on the assertion, without it the else
    branch dereferences the marker [(void * )(-1)] as if it were the
    predecessor. *)
Theorem unlink_of_unlinked_element (s : state) (e : addr) :
  mem s !! e = Some unlinked ->
  headlock (q s) = MutexFree -> taillock (q s) = MutexFree ->
  ISC_QUEUE_UNLINK true (Ptr e) s = Halt AssertionFailed /\
  ISC_QUEUE_UNLINK false (Ptr e) s = Halt InvalidAccess.
Proof.
  intros He Hhl Htl. open_state s. subst.
  unfold ISC_QUEUE_UNLINK, ISC_QLINK_INSIST, ISC_QLINK_LINKED, unlink_body, unlinked in *.
  split; steps; reflexivity.
Qed.

Lemma unlink_of_unlinked_element_witness :
  ISC_QUEUE_UNLINK false (Ptr 2%positive) sample_one = Halt InvalidAccess.
Proof.
  apply (unlink_of_unlinked_element sample_one 2%positive); reflexivity.
Defined.


(** X8.  On an element of the queue the two removals are the same operation:
    [ISC_QUEUE_UNLINKIFLINKED] ends in the very state [ISC_QUEUE_UNLINK]
    ends in, whether or not [ISC_QUEUE_CHECKINIT] is defined. *)
Theorem unlink_if_linked_is_unlink (chk : bool) (s : state) (l : list addr) (e : addr) :
  queue_inv s l -> e ∈ l ->
  ISC_QUEUE_UNLINKIFLINKED (Ptr e) s = ISC_QUEUE_UNLINK chk (Ptr e) s /\
  is_done (ISC_QUEUE_UNLINK chk (Ptr e) s) = true.
Proof.
  intros (Hnd & Hh & Ht & Hc & Hhl & Htl) Hin.
  destruct (split_at e l Hnd Hin) as (l1 & l2 & -> & H1 & H2).
  open_state s. subst.
  destruct (unlink_body_spec MutexHeld MutexHeld m l1 e l2 Hnd Hc)
    as (m' & Hrun & Hc' & [lk' He'] & Hdom & Hframe).
  pose proof (proj1 (chain_app _ _ _ _ _) Hc) as [_ [He _]].
  assert (ISC_QUEUE_UNLINK chk (Ptr e)
            (State (Queue_ (first_or NULL (l1 ++ e :: l2)) (last_or NULL (l1 ++ e :: l2))
                           MutexFree MutexFree) m)
          = Done (tt, State (Queue_ (first_or NULL (l1 ++ l2)) (last_or NULL (l1 ++ l2))
                                    MutexFree MutexFree)
                            (<[e := unlinked]> m'))) as EU.
  { unfold ISC_QUEUE_UNLINK, ISC_QLINK_INSIST, ISC_QLINK_LINKED.
    destruct chk; steps.
    all: destruct l2; steps; erewrite bind_eq by exact Hrun; steps;
      erewrite store_next_eq by lookup; cbn [prev]; rewrite insert_insert_eq; reflexivity. }
  rewrite EU. split; [|reflexivity].
  unfold ISC_QUEUE_UNLINKIFLINKED, ISC_QLINK_LINKED. steps.
  destruct l2; steps; erewrite bind_eq by exact Hrun; steps;
    erewrite store_next_eq by lookup; cbn [prev]; rewrite insert_insert_eq; reflexivity.
Qed.

Lemma unlink_if_linked_is_unlink_witness :
  ISC_QUEUE_UNLINKIFLINKED (Ptr 1%positive) sample_one
  = ISC_QUEUE_UNLINK true (Ptr 1%positive) sample_one.
Proof.
  apply (unlink_if_linked_is_unlink true sample_one [1%positive] 1%positive sample_one_inv).
  left.
Defined.

(** X9.  Removing the head element by [ISC_QUEUE_UNLINK] is a [pop]: both
    end in the same state, and [pop] returns that element. *)
Theorem unlink_of_head_is_pop (chk : bool) (s : state) (a : addr) (l : list addr) :
  queue_inv s (a :: l) ->
  exists s', ISC_QUEUE_POP s = Done (Ptr a, s') /\
             ISC_QUEUE_UNLINK chk (Ptr a) s = Done (tt, s').
Proof.
  intros (Hnd & Hh & Ht & Hc & Hhl & Htl).
  open_state s. subst.
  apply NoDup_cons in Hnd as [Hal Hnd].
  destruct Hc as [Ha Hc].
  unfold ISC_QUEUE_POP, pop_advance, ISC_QUEUE_UNLINK, ISC_QLINK_INSIST,
    ISC_QLINK_LINKED, unlink_body.
  destruct l as [|b l]; cbn [first_or last_or] in *.
  - eexists. split; [steps; reflexivity|].
    destruct chk; steps; erewrite store_next_eq by lookup; reflexivity.
  - destruct Hc as [Hb Hc]. apply not_elem_of_cons in Hal as [Hab Hal].
    eexists. split; [steps; reflexivity|].
    destruct chk; steps; erewrite store_next_eq by lookup; reflexivity.
Qed.

Lemma unlink_of_head_is_pop_witness :
  exists s', ISC_QUEUE_POP sample_one = Done (Ptr 1%positive, s') /\
             ISC_QUEUE_UNLINK true (Ptr 1%positive) sample_one = Done (tt, s').
Proof.
  apply (unlink_of_head_is_pop true sample_one 1%positive [] sample_one_inv).
Defined.

(** X10.  [push] undone by [unlink]: pushing a not-linked element onto a
    well-formed queue and unlinking it at once gives back the queue as it
    was, head, tail, locks and every link, the element itself ending with the
    not-linked marker in both fields. *)
Theorem push_then_unlink (chk : bool) (s : state) (l : list addr) (e : addr) (lk : qlink) :
  queue_inv s l -> mem s !! e = Some lk -> next lk = NOT_LINKED ->
  (run ISC_QUEUE_PUSH chk (Ptr e); ISC_QUEUE_UNLINK chk (Ptr e)) s =
  Done (tt, State (q s) (<[e := unlinked]> (mem s))).
Proof.
  intros Hinv He Hn.
  pose proof (queue_inv_linked s l e lk Hinv He Hn) as Hel.
  destruct Hinv as (Hnd & Hh & Ht & Hc & Hhl & Htl).
  open_state s. subst. destruct lk as [ep en]. cbn in Hn. subst en.
  unfold ISC_QUEUE_PUSH, ISC_QUEUE_UNLINK, ISC_QLINK_INSIST, ISC_QLINK_LINKED, unlink_body.
  destruct l as [|x l _] using rev_ind.
  - cbn [first_or last_or].
    destruct chk; steps; erewrite store_next_eq by lookup; cbn [prev];
      rewrite !insert_insert_eq; reflexivity.
  - rewrite last_or_snoc in *.
    apply chain_app in Hc as [Hc [Hx _]]. cbn [first_or] in Hx.
    apply not_elem_of_app in Hel as [_ Hex].
    apply not_elem_of_cons in Hex as [Hex _].
    assert (forall v1 v2 v3 v4,
              <[e := unlinked]> (<[e := v1]>
                (<[x := QLink (last_or NULL l) NULL]> (<[x := v2]>
                  (<[e := v3]> (<[e := v4]> m))))) = <[e := unlinked]> m) as Hmap.
    { intros. apply map_eq. intros k.
      destruct (decide (k = e)) as [->|Hke]; [rewrite !lookup_insert_eq; reflexivity|].
      rewrite !(lookup_insert_ne _ e k) by congruence.
      destruct (decide (k = x)) as [->|Hkx].
      - rewrite lookup_insert_eq. symmetry. exact Hx.
      - rewrite !(lookup_insert_ne _ x k) by congruence.
        rewrite !(lookup_insert_ne _ e k) by congruence. reflexivity. }
    destruct chk; steps; erewrite store_next_eq by lookup; cbn [prev];
      rewrite Hmap; reflexivity.
Qed.

Lemma push_then_unlink_witness :
  (run ISC_QUEUE_PUSH true (Ptr 2%positive); ISC_QUEUE_UNLINK true (Ptr 2%positive)) sample_one
  = Done (tt, sample_one).
Proof.
  rewrite (push_then_unlink true sample_one [1%positive] 2%positive unlinked
             sample_one_inv eq_refl eq_refl).
  reflexivity.
Defined.


Lemma run_op_done {A} (c : M A) (s s1 s' : state) (a : A) (r : ptr) :
  c s = Done (a, s1) -> (run c; ret NULL) s = Done (r, s') -> s' = s1.
Proof.
  intros Hc H. rewrite (bind_eq _ _ _ _ _ Hc) in H. unfold ret in H. congruence.
Qed.

(** X11.  An operation called as it asks to be called writes only to the
    elements of the queue and to the element it is handed: the link of every
    other element of the memory is what it was. *)
Theorem operations_leave_other_elements (chk : bool) (o : queue_op) (s : state)
    (l : list addr) (r : ptr) (s' : state) :
  op_requires o s l -> run_op chk o s = Done (r, s') ->
  forall b, b ∉ l -> op_element o <> Some b -> mem s' !! b = mem s !! b.
Proof.
  intros Hreq Hrun b Hb Hne.
  destruct o as [|e| |e|e]; cbn [op_requires run_op op_element] in *.
  - destruct (init_spec s) as [Hi _].
    rewrite (run_op_done _ _ _ _ _ _ Hi Hrun). reflexivity.
  - destruct Hreq as (Hinv & lk & He & Hn).
    destruct (push_spec chk s l e lk Hinv He Hn) as (s1 & H1 & _ & _ & Hframe).
    rewrite (run_op_done _ _ _ _ _ _ H1 Hrun). apply Hframe; congruence.
  - destruct l as [|a l].
    + destruct Hreq as (_ & Hh & _ & _ & Hhl & _).
      rewrite (pop_empty s Hh Hhl) in Hrun. congruence.
    + destruct (pop_spec s a l Hreq) as (s1 & H1 & _ & _ & _ & Hframe).
      rewrite H1 in Hrun. assert (s' = s1) by congruence. subst. apply Hframe, Hb.
  - destruct Hreq as (Hinv & Hin).
    destruct (unlink_spec chk s l e Hinv Hin) as (s1 & H1 & _ & _ & _ & Hframe).
    rewrite (run_op_done _ _ _ _ _ _ H1 Hrun). apply Hframe, Hb.
  - destruct Hreq as (Hinv & lk & He & Hin).
    destruct (decide (next lk = NOT_LINKED)) as [Hn|Hn].
    + destruct Hinv as (_ & _ & _ & _ & Hhl & Htl).
      pose proof (unlinkif_idle s e lk He Hn Hhl Htl) as H1.
      rewrite (run_op_done _ _ _ _ _ _ H1 Hrun). cbn [mem].
      rewrite lookup_insert_ne by congruence. reflexivity.
    + destruct (unlinkif_linked s l e Hinv (Hin Hn)) as (s1 & H1 & _ & _ & _ & Hframe).
      rewrite (run_op_done _ _ _ _ _ _ H1 Hrun). apply Hframe, Hb.
Qed.

Lemma operations_leave_other_elements_witness :
  exists s', run_op true (OpPush 2%positive) sample_one = Done (NULL, s') /\
             mem s' !! 3%positive = Some unlinked.
Proof.
  eexists. split; [vm_compute; reflexivity|].
  rewrite (operations_leave_other_elements true (OpPush 2%positive) sample_one
             [1%positive] NULL _).
  - reflexivity.
  - split; [exact sample_one_inv|]. exists unlinked. split; reflexivity.
  - vm_compute. reflexivity.
  - apply (bool_decide_unpack _). reflexivity.
  - discriminate.
Defined.

(** *** Elements are neither added nor removed *)















End QueueMore.

(** ** The address tests of [isc/net.h] *)

Module NetFacts.
Import Net.

Lemma all_bytes_spec f : all_bytes f = true -> forall b, is_byte b -> f b = true.
Proof.
  unfold all_bytes, is_byte. intros H b Hb.
  rewrite forallb_forall in H. specialize (H (Z.to_nat b)).
  rewrite Z2Nat.id in H by lia. apply H. apply in_seq. lia.
Qed.

Lemma land_low_byte a r m :
  0 <= a < 256 -> 0 <= m < 256 -> Z.land (a + 2 ^ 8 * r) m = Z.land a m.
Proof.
  intros Ha Hm.
  assert (Z.land (Z.ones 8) m = m) as Em.
  { rewrite Z.land_comm, Z.land_ones by lia. apply Z.mod_small. lia. }
  rewrite <- Em at 1. rewrite Z.land_assoc, Z.land_ones by lia.
  replace (a + 2 ^ 8 * r) with (a + r * 2 ^ 8) by lia.
  rewrite Z.mod_add by lia. rewrite Z.mod_small by lia. reflexivity.
Qed.

Lemma land_shiftl_mask x m k :
  0 <= k -> Z.land x (Z.shiftl m k) = Z.shiftl (Z.land (Z.shiftr x k) m) k.
Proof.
  intros Hk. apply Z.bits_inj'. intros n Hn.
  rewrite Z.land_spec. destruct (Z.lt_ge_cases n k).
  - rewrite !Z.shiftl_spec_low by lia. apply andb_false_r.
  - rewrite !Z.shiftl_spec by lia. rewrite Z.land_spec, Z.shiftr_spec by lia.
    do 2 f_equal. lia.
Qed.

Lemma land_high_byte a r m :
  0 <= r < 2 ^ 24 -> Z.land (2 ^ 24 * a + r) (2 ^ 24 * m) = 2 ^ 24 * Z.land a m.
Proof.
  intros Hr.
  replace (2 ^ 24 * m) with (Z.shiftl m 24) by (rewrite Z.shiftl_mul_pow2; lia).
  rewrite land_shiftl_mask by lia.
  rewrite Z.shiftr_div_pow2 by lia.
  replace ((2 ^ 24 * a + r) / 2 ^ 24) with a.
  - rewrite Z.shiftl_mul_pow2; lia.
  - apply Z.div_unique with r; lia.
Qed.

Lemma s_addr_range bo a b c d :
  is_byte a -> is_byte b -> is_byte c -> is_byte d ->
  0 <= s_addr bo a b c d < 2 ^ 32.
Proof. unfold is_byte. intros. destruct bo; cbn [s_addr]; lia. Qed.

Lemma byte_at_spec a b c d :
  is_byte a -> is_byte b -> is_byte c -> is_byte d ->
  let x := 2 ^ 24 * a + 2 ^ 16 * b + 2 ^ 8 * c + d in
  byte_at 3 x = a /\ byte_at 2 x = b /\ byte_at 1 x = c /\ byte_at 0 x = d.
Proof.
  unfold is_byte, byte_at. intros Ha Hb Hc Hd. cbn zeta.
  change (2 ^ (8 * 3)) with 16777216. change (2 ^ (8 * 2)) with 65536.
  change (2 ^ (8 * 1)) with 256. change (2 ^ (8 * 0)) with 1.
  change (2 ^ 24) with 16777216. change (2 ^ 16) with 65536. change (2 ^ 8) with 256.
  repeat split; Z.div_mod_to_equations; lia.
Qed.

(** X13.  The two IPv4 class tests look at the first octet of the address as
    it lies in memory (network byte order), on a host of either byte order:
    [ISC_IPADDR_ISMULTICAST] holds exactly for 224.x.x.x to 239.x.x.x,
    [ISC_IPADDR_ISEXPERIMENTAL] exactly for 240.x.x.x to 255.x.x.x, so no
    address passes both. *)
Theorem ipaddr_class_tests (bo : byte_order) (a b c d : Z) :
  is_byte a -> is_byte b -> is_byte c -> is_byte d ->
  s_addr bo a b c d = htonl bo (2 ^ 24 * a + 2 ^ 16 * b + 2 ^ 8 * c + d) /\
  ISC_IPADDR_ISMULTICAST bo (s_addr bo a b c d) = (224 <=? a) && (a <=? 239) /\
  ISC_IPADDR_ISEXPERIMENTAL bo (s_addr bo a b c d) = (240 <=? a) /\
  ISC_IPADDR_ISMULTICAST bo (s_addr bo a b c d) &&
    ISC_IPADDR_ISEXPERIMENTAL bo (s_addr bo a b c d) = false.
Proof.
  intros Ha Hb Hc Hd.
  assert (ISC_IPADDR_ISMULTICAST bo (s_addr bo a b c d) = (224 <=? a) && (a <=? 239) /\
          ISC_IPADDR_ISEXPERIMENTAL bo (s_addr bo a b c d) = (240 <=? a)) as [Em Ee].
  { unfold ISC_IPADDR_ISMULTICAST, ISC_IPADDR_ISEXPERIMENTAL.
    unfold uint32 at 1 2. rewrite !Z.mod_small by (apply s_addr_range; assumption).
    destruct bo.
    - change (ISC__IPADDR LittleEndian 0xf0000000) with 240.
      change (ISC__IPADDR LittleEndian 0xe0000000) with 224.
      cbn [s_addr].
      replace (a + 2 ^ 8 * b + 2 ^ 16 * c + 2 ^ 24 * d)
        with (a + 2 ^ 8 * (b + 2 ^ 8 * c + 2 ^ 16 * d)) by lia.
      rewrite land_low_byte by (unfold is_byte in *; lia).
      split.
      + apply (all_bytes_spec
                 (fun a => Bool.eqb (Z.land a 240 =? 224) ((224 <=? a) && (a <=? 239)))
                 eq_refl a) in Ha. apply Bool.eqb_prop, Ha.
      + apply (all_bytes_spec
                 (fun a => Bool.eqb (Z.land a 240 =? 240) (240 <=? a))
                 eq_refl a) in Ha. apply Bool.eqb_prop, Ha.
    - change (ISC__IPADDR BigEndian 0xf0000000) with (2 ^ 24 * 240).
      change (ISC__IPADDR BigEndian 0xe0000000) with (2 ^ 24 * 224).
      cbn [s_addr].
      replace (2 ^ 24 * a + 2 ^ 16 * b + 2 ^ 8 * c + d)
        with (2 ^ 24 * a + (2 ^ 16 * b + 2 ^ 8 * c + d)) by lia.
      rewrite land_high_byte by (unfold is_byte in *; lia).
      split.
      + apply (all_bytes_spec
                 (fun a => Bool.eqb (2 ^ 24 * Z.land a 240 =? 2 ^ 24 * 224)
                                    ((224 <=? a) && (a <=? 239)))
                 eq_refl a) in Ha. apply Bool.eqb_prop, Ha.
      + apply (all_bytes_spec
                 (fun a => Bool.eqb (2 ^ 24 * Z.land a 240 =? 2 ^ 24 * 240) (240 <=? a))
                 eq_refl a) in Ha. apply Bool.eqb_prop, Ha. }
  split; [|split; [exact Em|split; [exact Ee|]]].
  - destruct bo; cbn [s_addr htonl]; [|reflexivity].
    unfold bswap32.
    destruct (byte_at_spec a b c d Ha Hb Hc Hd) as (-> & -> & -> & ->). lia.
  - rewrite Em, Ee. destruct (Z.leb_spec 240 a), (Z.leb_spec 224 a), (Z.leb_spec a 239);
      try reflexivity; lia.
Qed.

Lemma ipaddr_class_tests_witness :
  ISC_IPADDR_ISMULTICAST LittleEndian (s_addr LittleEndian 224 0 0 251) = true.
Proof.
  rewrite (proj1 (proj2 (ipaddr_class_tests LittleEndian 224 0 0 251
                           ltac:(unfold is_byte; lia) ltac:(unfold is_byte; lia)
                           ltac:(unfold is_byte; lia) ltac:(unfold is_byte; lia)))).
  reflexivity.
Defined.


(** *** IPv6 address classes *)

Ltac sixteen x :=
  let H := fresh "Hlen" in
  intros [H _]; do 16 (destruct x as [|? x]; [discriminate H|]);
  destruct x; [clear H|discriminate H].

Lemma v4mapped_shape x :
  in6_wf x ->
  (IN6_IS_ADDR_V4MAPPED x = true <->
   exists a b c d, x = [0;0;0;0;0;0;0;0;0;0;255;255;a;b;c;d]).
Proof.
  sixteen x. unfold IN6_IS_ADDR_V4MAPPED, memcmp_eq, s6_addr. cbn [nth take].
  rewrite !andb_true_iff, bool_decide_eq_true, !Z.eqb_eq. split.
  - intros [[E ->] ->]. injection E as -> -> -> -> -> -> -> -> -> ->. eauto.
  - intros (a & b & c & d & E). injection E as -> -> -> -> -> -> -> -> -> -> -> -> _ _ _ _.
    repeat split; reflexivity.
Qed.

Lemma v4compat_shape x :
  in6_wf x ->
  (IN6_IS_ADDR_V4COMPAT x = true <->
   exists a b c d, x = [0;0;0;0;0;0;0;0;0;0;0;0;a;b;c;d] /\
                   (a, b, c, d) <> (0, 0, 0, 0) /\ (a, b, c, d) <> (0, 0, 0, 1)).
Proof.
  sixteen x. unfold IN6_IS_ADDR_V4COMPAT, memcmp_eq, s6_addr. cbn [nth take].
  rewrite andb_true_iff, !orb_true_iff, andb_true_iff, !negb_true_iff,
    bool_decide_eq_true, !Z.eqb_neq. split.
  - intros [E H]. injection E as -> -> -> -> -> -> -> -> -> -> -> ->.
    do 4 eexists. split; [reflexivity|]. split; intros E; injection E as -> -> -> ->; lia.
  - intros (a & b & c & d & E & H0 & H1).
    injection E as -> -> -> -> -> -> -> -> -> -> -> -> -> -> -> ->.
    split; [reflexivity|].
    destruct (Z.eq_dec a 0) as [->|]; [|tauto].
    destruct (Z.eq_dec b 0) as [->|]; [|tauto].
    destruct (Z.eq_dec c 0) as [->|]; [|tauto].
    right. split; intros ->; congruence.
Qed.

(** X14.  The two tests for IPv6 addresses that carry an IPv4 address: an
    address is V4-mapped exactly when it is [::ffff:a.b.c.d], V4-compatible
    exactly when it is [::a.b.c.d] other than [::] and [::1], and never
    both. *)
Theorem v4_in_v6_tests (x : list Z) :
  in6_wf x ->
  (IN6_IS_ADDR_V4MAPPED x = true <->
   exists a b c d, x = [0;0;0;0;0;0;0;0;0;0;255;255;a;b;c;d]) /\
  (IN6_IS_ADDR_V4COMPAT x = true <->
   exists a b c d, x = [0;0;0;0;0;0;0;0;0;0;0;0;a;b;c;d] /\
                   (a, b, c, d) <> (0, 0, 0, 0) /\ (a, b, c, d) <> (0, 0, 0, 1)) /\
  IN6_IS_ADDR_V4MAPPED x && IN6_IS_ADDR_V4COMPAT x = false.
Proof.
  intros Hwf. split; [apply v4mapped_shape, Hwf|]. split; [apply v4compat_shape, Hwf|].
  destruct (IN6_IS_ADDR_V4MAPPED x) eqn:Em; [|reflexivity].
  destruct (IN6_IS_ADDR_V4COMPAT x) eqn:Ec; [|reflexivity].
  apply (v4mapped_shape x Hwf) in Em as (a & b & c & d & ->).
  apply (v4compat_shape _ Hwf) in Ec as (a' & b' & c' & d' & E & _). discriminate E.
Qed.

Lemma sample_wf : in6_wf [0;0;0;0;0;0;0;0;0;0;255;255;192;0;2;1].
Proof. split; [reflexivity|]. repeat constructor; unfold is_byte; lia. Qed.

Lemma v4_in_v6_tests_witness :
  IN6_IS_ADDR_V4MAPPED [0;0;0;0;0;0;0;0;0;0;255;255;192;0;2;1] = true.
Proof.
  apply (v4_in_v6_tests _ sample_wf). do 4 eexists. reflexivity.
Defined.


Lemma multicast_true x : IN6_IS_ADDR_MULTICAST x = true -> s6_addr x 0 = 255.
Proof. unfold IN6_IS_ADDR_MULTICAST. apply Z.eqb_eq. Qed.

Lemma linklocal_true x :
  IN6_IS_ADDR_LINKLOCAL x = true ->
  s6_addr x 0 = 254 /\ Z.land (s6_addr x 1) 192 = 128.
Proof.
  unfold IN6_IS_ADDR_LINKLOCAL. rewrite andb_true_iff, !Z.eqb_eq. tauto.
Qed.

Lemma sitelocal_true x :
  IN6_IS_ADDR_SITELOCAL x = true ->
  s6_addr x 0 = 254 /\ Z.land (s6_addr x 1) 192 = 192.
Proof.
  unfold IN6_IS_ADDR_SITELOCAL. rewrite andb_true_iff, !Z.eqb_eq. tauto.
Qed.

Lemma loopback_true x :
  in6_wf x -> IN6_IS_ADDR_LOOPBACK x = true -> x = IN6ADDR_LOOPBACK_INIT.
Proof.
  sixteen x. unfold IN6_IS_ADDR_LOOPBACK, memcmp_eq. cbn [take in6addr_loopback].
  rewrite bool_decide_eq_true. unfold IN6ADDR_LOOPBACK_INIT. cbn [take]. tauto.
Qed.

Lemma byte_of_wf x k : in6_wf x -> (k < 16)%nat -> is_byte (s6_addr x k).
Proof.
  intros [Hl Hb] Hk. unfold s6_addr. rewrite Forall_forall in Hb.
  apply Hb. apply list_elem_of_In, nth_In. lia.
Qed.

(** X15.  The scope tests.  An address is link-local exactly when it lies in
    [fe80::/10] and site-local exactly when it lies in [fec0::/10]; and the
    six class tests of the header (multicast, link-local, site-local,
    loopback, V4-mapped, V4-compatible) exclude one another: no address
    passes two of them. *)
Theorem in6_classes_exclusive (x : list Z) :
  in6_wf x ->
  (IN6_IS_ADDR_LINKLOCAL x = true <->
   s6_addr x 0 = 0xfe /\ 0x80 <= s6_addr x 1 <= 0xbf) /\
  (IN6_IS_ADDR_SITELOCAL x = true <->
   s6_addr x 0 = 0xfe /\ 0xc0 <= s6_addr x 1 <= 0xff) /\
  Z.b2z (IN6_IS_ADDR_MULTICAST x) + Z.b2z (IN6_IS_ADDR_LINKLOCAL x) +
  Z.b2z (IN6_IS_ADDR_SITELOCAL x) + Z.b2z (IN6_IS_ADDR_LOOPBACK x) +
  Z.b2z (IN6_IS_ADDR_V4MAPPED x) + Z.b2z (IN6_IS_ADDR_V4COMPAT x) <= 1.
Proof.
  intros Hwf.
  pose proof (byte_of_wf x 1 Hwf ltac:(lia)) as Hb1.
  assert ((Z.land (s6_addr x 1) 192 = 128 <-> 128 <= s6_addr x 1 <= 191) /\
          (Z.land (s6_addr x 1) 192 = 192 <-> 192 <= s6_addr x 1 <= 255)) as [E1 E2].
  { pose proof (all_bytes_spec
       (fun b => Bool.eqb (Z.land b 192 =? 128) ((128 <=? b) && (b <=? 191)) &&
                 Bool.eqb (Z.land b 192 =? 192) ((192 <=? b) && (b <=? 255)))
       eq_refl _ Hb1) as H.
    apply andb_true_iff in H as [H1 H2]. apply Bool.eqb_prop in H1, H2.
    rewrite <- !Z.eqb_eq, H1, H2, !andb_true_iff, !Z.leb_le. tauto. }
  split; [|split].
  - unfold IN6_IS_ADDR_LINKLOCAL. rewrite andb_true_iff, !Z.eqb_eq, E1. tauto.
  - unfold IN6_IS_ADDR_SITELOCAL. rewrite andb_true_iff, !Z.eqb_eq, E2. tauto.
  - destruct (IN6_IS_ADDR_MULTICAST x) eqn:M;
    destruct (IN6_IS_ADDR_LINKLOCAL x) eqn:LL;
    destruct (IN6_IS_ADDR_SITELOCAL x) eqn:SL;
    destruct (IN6_IS_ADDR_LOOPBACK x) eqn:LB;
    destruct (IN6_IS_ADDR_V4MAPPED x) eqn:VM;
    destruct (IN6_IS_ADDR_V4COMPAT x) eqn:VC;
    cbn [Z.b2z]; try lia; exfalso;
    try apply multicast_true in M;
    try apply linklocal_true in LL as [LL0 LL1];
    try apply sitelocal_true in SL as [SL0 SL1];
    try (apply (loopback_true x Hwf) in LB);
    try (apply (v4mapped_shape x Hwf) in VM as (a & b & c & d & VM));
    try (apply (v4compat_shape x Hwf) in VC as (a' & b' & c' & d' & VC & V0 & V1));
    subst; cbn in *; try discriminate; try lia; try congruence.
  unfold IN6ADDR_LOOPBACK_INIT in VC. injection VC as <- <- <- <-. apply V1. reflexivity.
Qed.

Lemma in6_classes_exclusive_witness :
  IN6_IS_ADDR_LINKLOCAL [254;128;0;0;0;0;0;0;0;0;0;0;0;0;0;1] = true.
Proof.
  apply (in6_classes_exclusive [254;128;0;0;0;0;0;0;0;0;0;0;0;0;0;1]).
  - split; [reflexivity|]. repeat constructor; unfold is_byte; lia.
  - cbn. lia.
Defined.

Lemma land_low_word w r m :
  0 <= w < 2 ^ 16 -> 0 <= m < 2 ^ 16 -> Z.land (w + 2 ^ 16 * r) m = Z.land w m.
Proof.
  intros Hw Hm.
  assert (Z.land (Z.ones 16) m = m) as Em.
  { rewrite Z.land_comm, Z.land_ones by lia. apply Z.mod_small. lia. }
  rewrite <- Em at 1. rewrite Z.land_assoc, Z.land_ones by lia.
  replace (w + 2 ^ 16 * r) with (w + r * 2 ^ 16) by lia.
  rewrite Z.mod_add by lia. rewrite Z.mod_small by lia. reflexivity.
Qed.

(** X16.  The replacement tests of [ISC_PLATFORM_FIXIN6ISADDR], which look at
    the first 32-bit word of the address, give the answers of the byte-wise
    tests when that word is read on a little-endian host: link-local,
    site-local and multicast. *)
Theorem fixed_tests_agree (x : list Z) :
  in6_wf x ->
  Fix.IN6_IS_ADDR_LINKLOCAL (S6_l0 x) = IN6_IS_ADDR_LINKLOCAL x /\
  Fix.IN6_IS_ADDR_SITELOCAL (S6_l0 x) = IN6_IS_ADDR_SITELOCAL x /\
  Fix.IN6_IS_ADDR_MULTICAST (S6_l0 x) = IN6_IS_ADDR_MULTICAST x.
Proof.
  intros Hwf.
  pose proof (byte_of_wf x 0 Hwf ltac:(lia)) as H0.
  pose proof (byte_of_wf x 1 Hwf ltac:(lia)) as H1.
  pose proof (byte_of_wf x 2 Hwf ltac:(lia)) as H2.
  pose proof (byte_of_wf x 3 Hwf ltac:(lia)) as H3.
  unfold Fix.IN6_IS_ADDR_LINKLOCAL, Fix.IN6_IS_ADDR_SITELOCAL, Fix.IN6_IS_ADDR_MULTICAST,
    IN6_IS_ADDR_LINKLOCAL, IN6_IS_ADDR_SITELOCAL, IN6_IS_ADDR_MULTICAST, S6_l0.
  set (b0 := s6_addr x 0) in *. set (b1 := s6_addr x 1) in *.
  set (b2 := s6_addr x 2) in *. set (b3 := s6_addr x 3) in *.
  unfold is_byte in *.
  replace (b0 + 2 ^ 8 * b1 + 2 ^ 16 * b2 + 2 ^ 24 * b3)
    with ((b0 + 2 ^ 8 * b1) + 2 ^ 16 * (b2 + 2 ^ 8 * b3)) by lia.
  rewrite !land_low_word by lia.
  pose proof (all_bytes_spec
    (fun b0 => all_bytes (fun b1 =>
       Bool.eqb (Z.land (b0 + 2 ^ 8 * b1) 0xC0FF =? 0x80FE)
                ((b0 =? 0xfe) && (Z.land b1 0xc0 =? 0x80)) &&
       Bool.eqb (Z.land (b0 + 2 ^ 8 * b1) 0xC0FF =? 0xC0FE)
                ((b0 =? 0xfe) && (Z.land b1 0xc0 =? 0xc0)) &&
       Bool.eqb (Z.land (b0 + 2 ^ 8 * b1) 0xFF =? 0xFF) (b0 =? 0xff)))
    ltac:(vm_compute; reflexivity) b0 H0) as H.
  apply (all_bytes_spec _) with (b := b1) in H; [|exact H1].
  apply andb_true_iff in H as [H Hc]. apply andb_true_iff in H as [Ha Hb].
  apply Bool.eqb_prop in Ha, Hb, Hc. auto.
Qed.

Lemma fixed_tests_agree_witness :
  Fix.IN6_IS_ADDR_LINKLOCAL (S6_l0 [254;128;0;0;0;0;0;0;0;0;0;0;0;0;0;1]) = true.
Proof.
  rewrite (proj1 (fixed_tests_agree [254;128;0;0;0;0;0;0;0;0;0;0;0;0;0;1]
                    ltac:(split; [reflexivity|repeat constructor; unfold is_byte; lia]))).
  reflexivity.
Defined.

End NetFacts.
